(** * Confetti particle engine: model and properties

    A shallow embedding of the particle simulation of [index.js]: the helper
    object [Utils], the class [Confetti] (one particle) and the class
    [ConfettiManager] (the live collection, the canvas and the frame step).

    JavaScript numbers are modelled by the rationals [Q]: the properties below
    are about the arithmetic the code writes down, not about rounding, and
    ranges of random draws and of decaying quantities are stated with
    inclusive ends, as they also hold of rounded arithmetic.  The canvas
    keeps its width and height as the integers a browser stores.  What
    the code obtains from its host (the window, [Math.log], [Math.cos],
    [Math.sin], [Math.PI], [Math.random], [Date.now]) is a parameter of the
    model, gathered in the record [Host]. *)

From Stdlib Require Import QArith Qround Qabs Qminmax Lqa ZArith Lia List String Bool.
From Stdlib Require Import Qpower.
Import ListNotations.

Open Scope Q_scope.

(** ** Numbers and JavaScript primitives *)

(** [a < b] and [a <= b] as the booleans a JavaScript comparison produces. *)
Definition Qltb (a b : Q) : bool := negb (Qle_bool b a).
Definition Qleb (a b : Q) : bool := Qle_bool a b.

Definition Math_floor (q : Q) : Q := inject_Z (Qfloor q).
Definition Math_abs (q : Q) : Q := Qabs q.
Definition Math_max (a b : Q) : Q := Qmax a b.
Definition Math_pow (base : Q) (exponent : Z) : Q := Qpower base exponent.

(** Truthiness of a value that is [null]/[undefined] ([None]) or a string:
    the empty string is falsy. *)
Definition truthy (v : option string) : bool :=
  match v with
  | Some EmptyString => false
  | Some (String _ _) => true
  | None => false
  end.

(** [array[i]] for an integral index: [undefined] ([None]) out of range. *)
Definition js_index {A : Type} (array : list A) (i : Z) : option A :=
  if (i <? 0)%Z then None else nth_error array (Z.to_nat i).

Definition array_length {A : Type} (array : list A) : Q :=
  inject_Z (Z.of_nat (List.length array)).

(** Conversion of a number to the [unsigned long] of a DOM attribute:
    the fraction is dropped (toward zero) and the integer taken modulo 2^32. *)
Definition ToUint32 (v : Q) : Z :=
  ((if Qle_bool 0 v then Qfloor v else Qceiling v) mod 2 ^ 32)%Z.

(** What reading [canvas.width] (or [height]) returns after [canvas.width = v]:
    both are [unsigned long] attributes that reflect a content attribute, so
    they hold the integer [v] converts to, or the attribute's [default] when
    that integer exceeds 2^31 - 1. *)
Definition canvas_attribute (default : Z) (v : Q) : Q :=
  inject_Z
    (if (ToUint32 v <=? 2147483647)%Z then ToUint32 v else default).

(** ** The host *)

Record Window := {
  innerWidth : Q;
  innerHeight : Q;
  devicePixelRatio : Q
}.

(** [random_oracle k] is what the [k]-th call of [Math.random()] returns and
    [clock_oracle k] what the [k]-th call of [Date.now()] returns. *)
Record Host := {
  window : Window;
  Math_log : Q -> Q;
  Math_cos : Q -> Q;
  Math_sin : Q -> Q;
  Math_PI : Q;
  random_oracle : nat -> Q;
  clock_oracle : nat -> Q
}.

(** How many calls of each oracle have been made so far. *)
Record Calls := {
  randomCalls : nat;
  nowCalls : nat
}.

(** [Math.random()] returns a number in [0, 1). *)
Definition random_in_unit (h : Host) : Prop :=
  forall k, 0 <= random_oracle h k /\ random_oracle h k < 1.

(** A computation that consults the oracles. *)
Definition Eff (A : Type) : Type := Calls -> A * Calls.

Definition ret {A : Type} (a : A) : Eff A := fun c => (a, c).

Definition bind {A B : Type} (m : Eff A) (k : A -> Eff B) : Eff B :=
  fun c => let (a, c') := m c in k a c'.

Declare Scope eff_scope.
Delimit Scope eff_scope with eff.
Notation "x <- m ;; k" := (bind m (fun x => k))
  (at level 61, m at next level, right associativity) : eff_scope.
Open Scope eff_scope.

(** ** Data *)

Record XY := { x : Q; y : Q }.

Inductive Direction := DirLeft | DirRight.

Inductive RadiusYDirection := Down | Up.

Definition Direction_eqb (a b : Direction) : bool :=
  match a, b with
  | DirLeft, DirLeft | DirRight, DirRight => true
  | _, _ => false
  end.

(** An [Image] object, identified by its [src]. *)
Record Image := { src : string }.

Record Confetti := {
  speed : XY;
  finalSpeedX : Q;
  rotationSpeed : Q;
  dragCoefficient : Q;
  radius : XY;
  initialRadius : Q;
  rotationAngle : Q;
  emojiRotationAngle : Q;
  radiusYDirection : RadiusYDirection;
  absCos : Q;
  absSin : Q;
  position : XY;
  initialPosition : XY;
  color : option string;
  emoji : option string;
  svgIcon : option Image;   (* the icon once it is ready, [null] before *)
  svgImage : option Image;  (* the icon being loaded, absent without icon *)
  createdAt : Q;
  direction : Direction
}.

(** Assignments to the fields that [updatePosition] and [onload] write. *)
Definition set_speed_x (v : Q) (p : Confetti) : Confetti :=
  {| speed := {| x := v; y := y (speed p) |};
     finalSpeedX := finalSpeedX p; rotationSpeed := rotationSpeed p;
     dragCoefficient := dragCoefficient p; radius := radius p;
     initialRadius := initialRadius p; rotationAngle := rotationAngle p;
     emojiRotationAngle := emojiRotationAngle p;
     radiusYDirection := radiusYDirection p; absCos := absCos p;
     absSin := absSin p; position := position p;
     initialPosition := initialPosition p; color := color p;
     emoji := emoji p; svgIcon := svgIcon p; svgImage := svgImage p;
     createdAt := createdAt p; direction := direction p |}.

Definition set_position (v : XY) (p : Confetti) : Confetti :=
  {| speed := speed p;
     finalSpeedX := finalSpeedX p; rotationSpeed := rotationSpeed p;
     dragCoefficient := dragCoefficient p; radius := radius p;
     initialRadius := initialRadius p; rotationAngle := rotationAngle p;
     emojiRotationAngle := emojiRotationAngle p;
     radiusYDirection := radiusYDirection p; absCos := absCos p;
     absSin := absSin p; position := v;
     initialPosition := initialPosition p; color := color p;
     emoji := emoji p; svgIcon := svgIcon p; svgImage := svgImage p;
     createdAt := createdAt p; direction := direction p |}.

Definition set_rotationSpeed (v : Q) (p : Confetti) : Confetti :=
  {| speed := speed p;
     finalSpeedX := finalSpeedX p; rotationSpeed := v;
     dragCoefficient := dragCoefficient p; radius := radius p;
     initialRadius := initialRadius p; rotationAngle := rotationAngle p;
     emojiRotationAngle := emojiRotationAngle p;
     radiusYDirection := radiusYDirection p; absCos := absCos p;
     absSin := absSin p; position := position p;
     initialPosition := initialPosition p; color := color p;
     emoji := emoji p; svgIcon := svgIcon p; svgImage := svgImage p;
     createdAt := createdAt p; direction := direction p |}.

Definition set_radius_y (v : Q) (p : Confetti) : Confetti :=
  {| speed := speed p;
     finalSpeedX := finalSpeedX p; rotationSpeed := rotationSpeed p;
     dragCoefficient := dragCoefficient p;
     radius := {| x := x (radius p); y := v |};
     initialRadius := initialRadius p; rotationAngle := rotationAngle p;
     emojiRotationAngle := emojiRotationAngle p;
     radiusYDirection := radiusYDirection p; absCos := absCos p;
     absSin := absSin p; position := position p;
     initialPosition := initialPosition p; color := color p;
     emoji := emoji p; svgIcon := svgIcon p; svgImage := svgImage p;
     createdAt := createdAt p; direction := direction p |}.

Definition set_radiusYDirection (v : RadiusYDirection) (p : Confetti) : Confetti :=
  {| speed := speed p;
     finalSpeedX := finalSpeedX p; rotationSpeed := rotationSpeed p;
     dragCoefficient := dragCoefficient p; radius := radius p;
     initialRadius := initialRadius p; rotationAngle := rotationAngle p;
     emojiRotationAngle := emojiRotationAngle p;
     radiusYDirection := v; absCos := absCos p;
     absSin := absSin p; position := position p;
     initialPosition := initialPosition p; color := color p;
     emoji := emoji p; svgIcon := svgIcon p; svgImage := svgImage p;
     createdAt := createdAt p; direction := direction p |}.

Definition set_svgIcon (v : option Image) (p : Confetti) : Confetti :=
  {| speed := speed p;
     finalSpeedX := finalSpeedX p; rotationSpeed := rotationSpeed p;
     dragCoefficient := dragCoefficient p; radius := radius p;
     initialRadius := initialRadius p; rotationAngle := rotationAngle p;
     emojiRotationAngle := emojiRotationAngle p;
     radiusYDirection := radiusYDirection p; absCos := absCos p;
     absSin := absSin p; position := position p;
     initialPosition := initialPosition p; color := color p;
     emoji := emoji p; svgIcon := v; svgImage := svgImage p;
     createdAt := createdAt p; direction := direction p |}.

(** The operations of the 2D context that [draw] and [loop] invoke. *)
Inductive CanvasOp :=
| ClearRect (left top w h : Q)
| Save
| Restore
| Translate (tx ty : Q)
| Rotate (angle : Q)
| DrawImage (image : Image) (dx dy dw dh : Q)
| FillStyle (style : string)
| BeginPath
| Ellipse (cx cy rx ry rotation startAngle endAngle : Q)
| Fill
| Font (px : Q)
| TextAlignCenter
| FillText (text : string) (tx ty : Q).

Record Canvas := { width : Q; height : Q }.

Record ConfettiManager := {
  canvas : Canvas;
  confetti : list Confetti;
  lastUpdated : Q
}.

(** The argument of [addConfetti]: a key that is absent is [None]
    ([cfg_svgIcon] absent and [svgIcon: null] are both [None]). *)
Record Config := {
  cfg_confettiesNumber : option Q;
  cfg_confettiRadius : option Q;
  cfg_confettiColors : option (list string);
  cfg_emojies : option (list string);
  cfg_svgIcon : option string
}.

(** A configuration with every key present. *)
Record FullConfig := {
  confettiesNumber : Q;
  confettiRadius : Q;
  confettiColors : list string;
  emojies : list string;
  svgIconSrc : option string
}.

Definition defaultConfettiConfig : FullConfig :=
  {| confettiesNumber := 100;
     confettiRadius := 4;
     confettiColors :=
       [ "#fcf403"; "#62fc03"; "#f4fc03"; "#03e7fc";
         "#03fca5"; "#a503fc"; "#fc03ad"; "#fc03c2" ]%string;
     emojies := [];
     svgIconSrc := None |}.

Definition or_default {A : Type} (given : option A) (default : A) : A :=
  match given with
  | Some v => v
  | None => default
  end.

(** [{ ...defaults, ...config }] *)
Definition spread (defaults : FullConfig) (config : Config) : FullConfig :=
  {| confettiesNumber :=
       or_default (cfg_confettiesNumber config) (confettiesNumber defaults);
     confettiRadius :=
       or_default (cfg_confettiRadius config) (confettiRadius defaults);
     confettiColors :=
       or_default (cfg_confettiColors config) (confettiColors defaults);
     emojies := or_default (cfg_emojies config) (emojies defaults);
     svgIconSrc :=
       match cfg_svgIcon config with
       | Some s => Some s
       | None => svgIconSrc defaults
       end |}.

Definition emptyConfig : Config :=
  {| cfg_confettiesNumber := None; cfg_confettiRadius := None;
     cfg_confettiColors := None; cfg_emojies := None; cfg_svgIcon := None |}.

(** ** The program *)

Section Engine.

Variable host : Host.

(** *** Oracles *)

Definition Math_random : Eff Q :=
  fun c =>
    (random_oracle host (randomCalls c),
     {| randomCalls := S (randomCalls c); nowCalls := nowCalls c |}).

Definition Date_now : Eff Q :=
  fun c =>
    (clock_oracle host (nowCalls c),
     {| randomCalls := randomCalls c; nowCalls := S (nowCalls c) |}).

(** *** Utils *)

(** The result is a multiple of [10 ^ -precision] between [min] and [max].
    Over the rationals it stays below [max]; in the code's doubles
    [randomValue] can round up to [max] itself (a draw just below 1), and
    the product with [multiplier] can round to a neighbouring step, so the
    properties drawn from this function keep both ends of the range
    inclusive and name no particular step. *)
Definition getRandomInRange (min max : Q) (precision : Z) : Eff Q :=
  let multiplier := Math_pow 10 precision in
  r <- Math_random ;;
  let randomValue := r * (max - min) + min in
  ret (Math_floor (randomValue * multiplier) / multiplier).

Definition getRandomItem {A : Type} (array : list A) : Eff (option A) :=
  r <- Math_random ;;
  ret (js_index array (Qfloor (r * array_length array))).

Definition getScaleFactor : Q :=
  Math_log host (innerWidth (window host)) / Math_log host 1920.

Definition DEG_TO_RAD : Q := Math_PI host / 180.

(** *** class Confetti *)

(** [emojis.length || svgIcon] of the constructor. *)
Definition glyph_requested (emojis : list string) (icon : option string) : bool :=
  negb (Nat.eqb (List.length emojis) 0) || truthy icon.

Definition Confetti_new (initialPosition0 : XY) (direction0 : Direction)
    (radius0 : Q) (colors emojis : list string) (icon : option string)
  : Eff Confetti :=
  r <- getRandomInRange 0.9 1.7 3 ;;
  let speedFactor := r * getScaleFactor in
  finalSpeedX0 <- getRandomInRange 0.2 0.6 3 ;;
  rotationSpeed0 <-
    (if glyph_requested emojis icon
     then ret 0.01
     else (r' <- getRandomInRange 0.03 0.07 3 ;; ret (r' * getScaleFactor))) ;;
  dragCoefficient0 <- getRandomInRange 0.0005 0.0009 6 ;;
  rotationAngle0 <-
    (match direction0 with
     | DirLeft => getRandomInRange 0 0.2 3
     | DirRight => getRandomInRange (-0.2) 0 3
     end) ;;
  emojiRotationAngle0 <- getRandomInRange 0 (2 * Math_PI host) 0 ;;
  a <-
    (match direction0 with
     | DirLeft => getRandomInRange 82 15 0
     | DirRight => getRandomInRange (-15) (-82) 0
     end) ;;
  let angle := a * DEG_TO_RAD in
  let absCos0 := Math_abs (Math_cos host angle) in
  let absSin0 := Math_abs (Math_sin host angle) in
  offset <- getRandomInRange (-150) 0 0 ;;
  let position0 :=
    {| x := x initialPosition0 +
            (match direction0 with
             | DirLeft => - offset
             | DirRight => offset
             end) * absCos0;
       y := y initialPosition0 - offset * absSin0 |} in
  color0 <-
    (if glyph_requested emojis icon then ret None else getRandomItem colors) ;;
  emoji0 <-
    (if negb (Nat.eqb (List.length emojis) 0)
     then getRandomItem emojis
     else ret None) ;;
  let svgImage0 :=
    if truthy icon
    then match icon with
         | Some s => Some {| src := s |}
         | None => None
         end
    else None in
  createdAt0 <- Date_now ;;
  ret {| speed := {| x := speedFactor; y := speedFactor |};
         finalSpeedX := finalSpeedX0;
         rotationSpeed := rotationSpeed0;
         dragCoefficient := dragCoefficient0;
         radius := {| x := radius0; y := radius0 |};
         initialRadius := radius0;
         rotationAngle := rotationAngle0;
         emojiRotationAngle := emojiRotationAngle0;
         radiusYDirection := Down;
         absCos := absCos0;
         absSin := absSin0;
         position := position0;
         initialPosition := position0;
         color := color0;
         emoji := emoji0;
         svgIcon := None;
         svgImage := svgImage0;
         createdAt := createdAt0;
         direction := direction0 |}.

(** The [onload] handler of the icon: the image becomes ready.  It exists
    only on a particle that has an [svgImage]. *)
Definition onload (p : Confetti) : Confetti :=
  match svgImage p with
  | Some image => set_svgIcon (Some image) p
  | None => p
  end.

Definition is_ready (icon : option Image) : bool :=
  match icon with
  | Some _ => true
  | None => false
  end.

Definition draw (p : Confetti) : list CanvasOp :=
  let scale := devicePixelRatio (window host) in
  let radiusX := x (radius p) in
  let radiusY := y (radius p) in
  match svgIcon p with
  | Some image =>
      [ Save;
        Translate (scale * x (position p)) (scale * y (position p));
        Rotate (emojiRotationAngle p);
        DrawImage image (- radiusX) (- radiusY) (radiusX * 2) (radiusY * 2);
        Restore ]
  | None =>
      if truthy (color p) then
        [ FillStyle (or_default (color p) EmptyString);
          BeginPath;
          Ellipse (x (position p) * scale) (y (position p) * scale)
                  (radiusX * scale) (radiusY * scale)
                  (rotationAngle p) 0 (2 * Math_PI host);
          Fill ]
      else if truthy (emoji p) then
        [ Font (radiusX * scale);
          Save;
          Translate (scale * x (position p)) (scale * y (position p));
          Rotate (emojiRotationAngle p);
          TextAlignCenter;
          FillText (or_default (emoji p) EmptyString) 0 (radiusY / 2);
          Restore ]
      else []
  end.

Definition updatePosition (deltaTime currentTime : Q) (p : Confetti) : Confetti :=
  let elapsed := currentTime - createdAt p in
  let p1 :=
    if Qltb (finalSpeedX p) (x (speed p))
    then set_speed_x (x (speed p) - dragCoefficient p * deltaTime) p
    else p in
  let p2 :=
    set_position
      {| x := x (position p1) +
              x (speed p1) *
              (match direction p1 with
               | DirLeft => - absCos p1
               | DirRight => absCos p1
               end) * deltaTime;
         y := y (initialPosition p1) - y (speed p1) * absSin p1 * elapsed +
              (0.00125 * Math_pow elapsed 2) / 2 |} p1 in
  if negb (truthy (emoji p2)) && negb (is_ready (svgIcon p2)) then
    let p3 := set_rotationSpeed (rotationSpeed p2 - 1e-5 * deltaTime) p2 in
    let p4 := set_rotationSpeed (Math_max (rotationSpeed p3) 0) p3 in
    match radiusYDirection p4 with
    | Down =>
        let p5 := set_radius_y (y (radius p4) - deltaTime * rotationSpeed p4) p4 in
        if Qleb (y (radius p5)) 0
        then set_radiusYDirection Up (set_radius_y 0 p5)
        else p5
    | Up =>
        let p5 := set_radius_y (y (radius p4) + deltaTime * rotationSpeed p4) p4 in
        if Qleb (initialRadius p5) (y (radius p5))
        then set_radiusYDirection Down (set_radius_y (initialRadius p5) p5)
        else p5
    end
  else p2.

Definition isVisible (canvasHeight : Q) (p : Confetti) : bool :=
  Qltb (y (position p)) (canvasHeight + 100).

(** *** class ConfettiManager *)

Definition set_canvas (v : Canvas) (m : ConfettiManager) : ConfettiManager :=
  {| canvas := v; confetti := confetti m; lastUpdated := lastUpdated m |}.

Definition set_confetti (v : list Confetti) (m : ConfettiManager) : ConfettiManager :=
  {| canvas := canvas m; confetti := v; lastUpdated := lastUpdated m |}.

Definition set_lastUpdated (v : Q) (m : ConfettiManager) : ConfettiManager :=
  {| canvas := canvas m; confetti := confetti m; lastUpdated := v |}.

Definition resizeCanvas (m : ConfettiManager) : ConfettiManager :=
  set_canvas
    {| width :=
         canvas_attribute 300
           (innerWidth (window host) * devicePixelRatio (window host));
       height :=
         canvas_attribute 150
           (innerHeight (window host) * devicePixelRatio (window host)) |}
    m.

(** The constructor; a canvas element starts 300 by 150. *)
Definition ConfettiManager_new : Eff ConfettiManager :=
  now <- Date_now ;;
  ret (resizeCanvas
         {| canvas := {| width := 300; height := 150 |};
            confetti := [];
            lastUpdated := now |}).

(** The [for] loop of [addConfetti], from counter [i] on.  [fuel] bounds the
    number of iterations: [None] when it runs out before the loop exits. *)
Fixpoint addConfetti_loop (fuel : nat) (i : Z) (settings : FullConfig)
    (baseY : Q) (live : list Confetti) : Eff (option (list Confetti)) :=
  if Qltb (inject_Z i) (confettiesNumber settings / 2) then
    match fuel with
    | O => ret None
    | S fuel' =>
        fromLeft <-
          Confetti_new {| x := 0; y := baseY |} DirRight
            (confettiRadius settings) (confettiColors settings)
            (emojies settings) (svgIconSrc settings) ;;
        fromRight <-
          Confetti_new {| x := innerWidth (window host); y := baseY |} DirLeft
            (confettiRadius settings) (confettiColors settings)
            (emojies settings) (svgIconSrc settings) ;;
        addConfetti_loop fuel' (i + 1) settings baseY
          ((live ++ [fromLeft]) ++ [fromRight])
    end
  else ret (Some live).

Definition addConfetti (fuel : nat) (config : Config) (m : ConfettiManager)
  : Eff (option ConfettiManager) :=
  let settings := spread defaultConfettiConfig config in
  let baseY := (5 * innerHeight (window host)) / 7 in
  live <- addConfetti_loop fuel 0 settings baseY (confetti m) ;;
  ret (option_map (fun l => set_confetti l m) live).

Definition resetAndStart (fuel : nat) (config : Config) (m : ConfettiManager)
  : Eff (option ConfettiManager) :=
  addConfetti fuel config (set_confetti [] m).

(** The callback of [filter] in [loop], run over the live collection in
    order: the particles kept and the drawing operations issued. *)
Fixpoint filter_frame (deltaTime currentTime canvasHeight : Q)
    (items : list Confetti) : list Confetti * list CanvasOp :=
  match items with
  | [] => ([], [])
  | item :: rest =>
      let item' := updatePosition deltaTime currentTime item in
      let ops := draw item' in
      let keep := isVisible canvasHeight item' in
      let (kept, ops') := filter_frame deltaTime currentTime canvasHeight rest in
      (if keep then item' :: kept else kept, ops ++ ops')
  end.

(** One frame.  The request for the next frame is left to the caller. *)
Definition loop (m : ConfettiManager) : Eff (ConfettiManager * list CanvasOp) :=
  currentTime <- Date_now ;;
  let deltaTime := currentTime - lastUpdated m in
  let m1 := set_lastUpdated currentTime m in
  let cleared := ClearRect 0 0 (width (canvas m1)) (height (canvas m1)) in
  let (kept, ops) :=
    filter_frame deltaTime currentTime (height (canvas m1)) (confetti m1) in
  ret (set_confetti kept m1, cleared :: ops).

(** *** Lives of a particle *)

(** Successive calls [updatePosition(deltaTime, currentTime)]. *)
Definition updates (p : Confetti) (calls : list (Q * Q)) : Confetti :=
  fold_left (fun q c => updatePosition (fst c) (snd c) q) calls p.

(** What can happen to a particle: a frame updates it, or its icon loads. *)
Inductive Event :=
| Update (deltaTime currentTime : Q)
| Loaded.

Definition step (p : Confetti) (e : Event) : Confetti :=
  match e with
  | Update deltaTime currentTime => updatePosition deltaTime currentTime p
  | Loaded => onload p
  end.

Definition run (p : Confetti) (events : list Event) : Confetti :=
  fold_left step events p.

End Engine.

(** ** Timers and [Utils.debounce] *)

(** A pending timer of the host: the identifier [setTimeout] returned, the
    time from which it may fire and the job it runs. *)
Record Timer (J : Type) := {
  timer_id : nat;
  due : Q;
  job : J
}.
Arguments timer_id {J}.
Arguments due {J}.
Arguments job {J}.

Record Timers (J : Type) := {
  next_id : nat;
  pending : list (Timer J)
}.
Arguments next_id {J}.
Arguments pending {J}.

Definition setTimeout {J : Type} (now delay : Q) (j : J) (timers : Timers J)
  : nat * Timers J :=
  (next_id timers,
   {| next_id := S (next_id timers);
      pending := pending timers
                 ++ [{| timer_id := next_id timers; due := now + delay; job := j |}] |}).

(** [clearTimeout(id)]; [undefined] ([None]) and unknown identifiers clear
    nothing. *)
Definition clearTimeout {J : Type} (id : option nat) (timers : Timers J)
  : Timers J :=
  match id with
  | None => timers
  | Some i =>
      {| next_id := next_id timers;
         pending := filter (fun t => negb (Nat.eqb (timer_id t) i))
                      (pending timers) |}
  end.

(** The host runs the timers that are due and forgets them. *)
Definition run_due {J : Type} (now : Q) (timers : Timers J) : list J * Timers J :=
  (map job (filter (fun t => Qleb (due t) now) (pending timers)),
   {| next_id := next_id timers;
      pending := filter (fun t => negb (Qleb (due t) now)) (pending timers) |}).

(** The function [debounce(func, delay)] returns, called at time [now] with
    [args]: [timeout] is the variable of the closure and [defer args] the job
    [() => func(...args)]. *)
Definition debounced {J Args : Type} (defer : Args -> J) (delay : Q)
    (now : Q) (args : Args) (state : option nat * Timers J)
  : option nat * Timers J :=
  let (timeout, timers) := state in
  let cleared := clearTimeout timeout timers in
  let (id, timers') := setTimeout now delay (defer args) cleared in
  (Some id, timers').

(** Successive calls of the debounced function, none of its timers firing in
    between. *)
Definition debounced_calls {J Args : Type} (defer : Args -> J) (delay : Q)
    (calls : list (Q * Args)) (state : option nat * Timers J)
  : option nat * Timers J :=
  fold_left (fun s call => debounced defer delay (fst call) (snd call) s)
    calls state.

(** ** Vocabulary of the properties *)

(** The fields no update ever writes. *)
Record same_constants (p q : Confetti) : Prop := {
  same_speed_y : y (speed q) = y (speed p);
  same_finalSpeedX : finalSpeedX q = finalSpeedX p;
  same_dragCoefficient : dragCoefficient q = dragCoefficient p;
  same_radius_x : x (radius q) = x (radius p);
  same_initialRadius : initialRadius q = initialRadius p;
  same_rotationAngle : rotationAngle q = rotationAngle p;
  same_emojiRotationAngle : emojiRotationAngle q = emojiRotationAngle p;
  same_absCos : absCos q = absCos p;
  same_absSin : absSin q = absSin p;
  same_initialPosition : initialPosition q = initialPosition p;
  same_color : color q = color p;
  same_emoji : emoji q = emoji p;
  same_svgImage : svgImage q = svgImage p;
  same_createdAt : createdAt q = createdAt p;
  same_direction : direction q = direction p
}.

(** The horizontal speed after the drag step of an update. *)
Definition dragged_speed_x (deltaTime : Q) (p : Confetti) : Q :=
  if Qltb (finalSpeedX p) (x (speed p))
  then x (speed p) - dragCoefficient p * deltaTime
  else x (speed p).

(** The rotation speed an update uses: decayed, not below zero. *)
Definition decayed_rotationSpeed (deltaTime : Q) (p : Confetti) : Q :=
  Math_max (rotationSpeed p - 1e-5 * deltaTime) 0.

Definition tumbles (p : Confetti) : bool :=
  negb (truthy (emoji p)) && negb (is_ready (svgIcon p)).

Definition radius_y_in_range (p : Confetti) : Prop :=
  0 <= y (radius p) /\ y (radius p) <= initialRadius p.

(** The entry [getRandomItem] picks when [Math.random()] returns [r]. *)
Definition picked {A : Type} (array : list A) (r : Q) : option A :=
  js_index array (Qfloor (r * array_length array)).

(** A demonstration host: a 1920 by 1080 window at device pixel ratio 2,
    polynomial stand-ins for the transcendental functions, [Math.random()]
    returning 1/2, 1/3, 1/4, ... and a clock that starts at 1000 and advances
    16 ms per call. *)
Definition demo_host : Host :=
  {| window :=
       {| innerWidth := 1920; innerHeight := 1080; devicePixelRatio := 2 |};
     Math_log := fun q => 2 * (q - 1) / (q + 1);
     Math_cos := fun a => 1 - a * a / 2 + a * a * a * a / 24;
     Math_sin := fun a => a - a * a * a / 6 + a * a * a * a * a / 120;
     Math_PI := 3.1416;
     random_oracle := fun k => 1 # Pos.of_succ_nat (S k);
     clock_oracle := fun k => 1000 + 16 * inject_Z (Z.of_nat k) |}.

Definition no_calls : Calls := {| randomCalls := 0; nowCalls := 0 |}.

(** The host [h] with another window. *)
Definition with_window (w : Window) (h : Host) : Host :=
  {| window := w;
     Math_log := Math_log h; Math_cos := Math_cos h; Math_sin := Math_sin h;
     Math_PI := Math_PI h;
     random_oracle := random_oracle h; clock_oracle := clock_oracle h |}.

(** The demonstration host on a 1001 by 851 window at device pixel ratio
    1.5. *)
Definition fractional_host : Host :=
  with_window
    {| innerWidth := 1001; innerHeight := 851; devicePixelRatio := 1.5 |}
    demo_host.

(** A particle that sits at height [y0], created at [createdAt0]. *)
Definition resting_particle (y0 createdAt0 : Q) : Confetti :=
  {| speed := {| x := 0; y := 0 |};
     finalSpeedX := 0; rotationSpeed := 0; dragCoefficient := 0;
     radius := {| x := 4; y := 4 |}; initialRadius := 4;
     rotationAngle := 0; emojiRotationAngle := 0;
     radiusYDirection := Down; absCos := 0; absSin := 0;
     position := {| x := 0; y := y0 |};
     initialPosition := {| x := 0; y := y0 |};
     color := Some "#fcf403"%string; emoji := None;
     svgIcon := None; svgImage := None;
     createdAt := createdAt0; direction := DirRight |}.

(** A particle moving right at speed [speedX] with drag floor [floorX]. *)
Definition drifting_particle (speedX floorX : Q) : Confetti :=
  {| speed := {| x := speedX; y := 1 |};
     finalSpeedX := floorX; rotationSpeed := 0.05; dragCoefficient := 0.0005;
     radius := {| x := 4; y := 4 |}; initialRadius := 4;
     rotationAngle := 0.1; emojiRotationAngle := 0;
     radiusYDirection := Down; absCos := 0.6; absSin := 0.8;
     position := {| x := 0; y := 770 |};
     initialPosition := {| x := 0; y := 770 |};
     color := Some "#fcf403"%string; emoji := None;
     svgIcon := None; svgImage := None;
     createdAt := 1000; direction := DirRight |}.

(** A burst of [perSide] pairs: each pair is a particle of direction right
    launched from [(0, 5/7 * innerHeight)] followed by a particle of direction
    left launched from [(innerWidth, 5/7 * innerHeight)]. *)
Fixpoint spawn_pairs (host : Host) (perSide : nat) (settings : FullConfig)
  : Eff (list Confetti) :=
  match perSide with
  | O => ret []
  | S k =>
      rightward <-
        Confetti_new host
          {| x := 0; y := 5 * innerHeight (window host) / 7 |} DirRight
          (confettiRadius settings) (confettiColors settings)
          (emojies settings) (svgIconSrc settings) ;;
      leftward <-
        Confetti_new host
          {| x := innerWidth (window host);
             y := 5 * innerHeight (window host) / 7 |} DirLeft
          (confettiRadius settings) (confettiColors settings)
          (emojies settings) (svgIconSrc settings) ;;
      rest <- spawn_pairs host k settings ;;
      ret (rightward :: leftward :: rest)
  end.

Definition count_direction (d : Direction) (live : list Confetti) : nat :=
  List.length (filter (fun p => Direction_eqb (direction p) d) live).

(** The number of iterations of the loop of [addConfetti]. *)
Definition pairs_spawned (confettiesNumber0 : Q) : nat :=
  Z.to_nat (Qceiling (confettiesNumber0 / 2)).

Definition count_config (n : Q) : Config :=
  {| cfg_confettiesNumber := Some n; cfg_confettiRadius := None;
     cfg_confettiColors := None; cfg_emojies := None; cfg_svgIcon := None |}.

(** What [addConfetti] adds to the live collection: how many particles, and
    how many of each direction ([None] if the call does not return). *)
Definition growth (before : ConfettiManager) (after : option ConfettiManager)
  : option (nat * nat * nat) :=
  option_map
    (fun m' =>
       let added := skipn (List.length (confetti before)) (confetti m') in
       (List.length added,
        count_direction DirRight added,
        count_direction DirLeft added))
    after.



Definition ranged (r min max : Q) (precision : Z) : Q :=
  Math_floor ((r * (max - min) + min) * Math_pow 10 precision)
  / Math_pow 10 precision.

Definition random_draws (emojis : list string) (icon : option string) : nat :=
  7 + (if glyph_requested emojis icon then 0 else 2)
    + (if Nat.eqb (List.length emojis) 0 then 0 else 1).

(** What every particle of a burst spawned under [settings] satisfies. *)
Definition follows_settings (host : Host) (settings : FullConfig)
    (p : Confetti) : Prop :=
  radius p = {| x := confettiRadius settings; y := confettiRadius settings |}
  /\ initialRadius p = confettiRadius settings
  /\ radiusYDirection p = Down
  /\ svgIcon p = None
  /\ position p = initialPosition p
  /\ 5 * innerHeight (window host) / 7 <= y (position p)
  /\ match direction p with
     | DirRight => x (position p) <= 0
     | DirLeft => innerWidth (window host) <= x (position p)
     end
  /\ (glyph_requested (emojies settings) (svgIconSrc settings) = false ->
      confettiColors settings <> [] ->
      (exists col, color p = Some col /\ In col (confettiColors settings))
      /\ emoji p = None /\ svgImage p = None).

(** The depth of the context's state stack after [ops], starting at [depth]:
    [None] if a [Restore] finds the stack empty or a [Translate] or [Rotate]
    is issued outside every [Save]. *)
Fixpoint scoped (depth : nat) (ops : list CanvasOp) : option nat :=
  match ops with
  | [] => Some depth
  | Save :: rest => scoped (S depth) rest
  | Restore :: rest =>
      match depth with
      | O => None
      | S d => scoped d rest
      end
  | Translate _ _ :: rest | Rotate _ :: rest =>
      match depth with
      | O => None
      | S _ => scoped depth rest
      end
  | _ :: rest => scoped depth rest
  end.

(** The drawing operations of an icon that is ready. *)
Definition image_ops (host : Host) (image : Image) (p : Confetti) : list CanvasOp :=
  [ Save;
    Translate (devicePixelRatio (window host) * x (position p))
              (devicePixelRatio (window host) * y (position p));
    Rotate (emojiRotationAngle p);
    DrawImage image (- x (radius p)) (- y (radius p))
              (x (radius p) * 2) (y (radius p) * 2);
    Restore ].

(** The drawing operations of an emoji. *)
Definition text_ops (host : Host) (text : string) (p : Confetti) : list CanvasOp :=
  [ Font (x (radius p) * devicePixelRatio (window host));
    Save;
    Translate (devicePixelRatio (window host) * x (position p))
              (devicePixelRatio (window host) * y (position p));
    Rotate (emojiRotationAngle p);
    TextAlignCenter;
    FillText text 0 (y (radius p) / 2);
    Restore ].

(** The total duration of a sequence of frames. *)
Definition total_deltaTime (calls : list (Q * Q)) : Q :=
  fold_right (fun call total => fst call + total) 0 calls.

(** The age from which a particle is past the bound of [isVisible]. *)
Definition cull_age (canvasHeight : Q) (p : Confetti) : Q :=
  Math_max 0
    (Math_max (1600 * (y (speed p) * absSin p + 1))
              (canvasHeight + 100 - y (initialPosition p))).

(** The time from which a frame removes every particle of [live]. *)
Definition deadline (canvasHeight : Q) (live : list Confetti) : Q :=
  fold_right (fun p latest => Math_max (createdAt p + cull_age canvasHeight p) latest)
    0 live.

(** Identifiers are handed out once. *)
Definition timers_fresh {J : Type} (state : option nat * Timers J) : Prop :=
  Forall (fun t => (timer_id t < next_id (snd state))%nat) (pending (snd state))
  /\ match fst state with
     | Some i => (i < next_id (snd state))%nat
     | None => True
     end.

(** The timers a first call leaves alone: all but the one [timeout] names. *)
Definition others_of {J : Type} (state : option nat * Timers J) : list (Timer J) :=
  pending (clearTimeout (fst state) (snd state)).

(** ** Proof steps *)

(** Reads fields through the assignments. *)
Ltac fields :=
  cbn [set_position set_speed_x set_rotationSpeed set_radius_y
       set_radiusYDirection set_svgIcon
       speed finalSpeedX rotationSpeed dragCoefficient radius initialRadius
       rotationAngle emojiRotationAngle radiusYDirection absCos absSin
       position initialPosition color emoji svgIcon svgImage createdAt
       direction x y] in *.

(** Splits [updatePosition] into the paths through its conditionals. *)
Ltac update_paths :=
  unfold updatePosition; fields;
  repeat match goal with
         | |- context [if ?b then _ else _] =>
             let E := fresh "E" in destruct b eqn:E; fields
         | |- context [match radiusYDirection ?p with _ => _ end] =>
             let E := fresh "E" in destruct (radiusYDirection p) eqn:E; fields
         end.

(** Runs the constructor, one case per branch it takes. *)
Ltac construct :=
  unfold Confetti_new, getRandomInRange, getRandomItem, Math_random, Date_now,
    bind, ret;
  repeat match goal with
         | |- context [if ?b then _ else _] =>
             let E := fresh "E" in destruct b eqn:E
         | |- context [match ?d with DirLeft => _ | DirRight => _ end] =>
             destruct d
         end;
  cbn [fst snd randomCalls nowCalls]; fields.

(** ** Comparisons *)

Lemma Qltb_lt (a b : Q) : Qltb a b = true <-> a < b.
Proof.
  unfold Qltb. rewrite negb_true_iff, <- not_true_iff_false, Qle_bool_iff.
  split; intro H; [apply Qnot_le_lt | apply Qlt_not_le]; exact H.
Qed.

Lemma Qltb_ge (a b : Q) : Qltb a b = false <-> b <= a.
Proof.
  unfold Qltb. rewrite negb_false_iff. apply Qle_bool_iff.
Qed.

Lemma Qleb_le (a b : Q) : Qleb a b = true <-> a <= b.
Proof. apply Qle_bool_iff. Qed.

Lemma Qleb_gt (a b : Q) : Qleb a b = false <-> b < a.
Proof.
  unfold Qleb. rewrite <- not_true_iff_false, Qle_bool_iff.
  split; intro H; [apply Qnot_le_lt | apply Qlt_not_le]; exact H.
Qed.

Lemma Math_max_zero_nonneg (a : Q) : 0 <= Math_max a 0.
Proof. unfold Math_max. apply Q.le_max_r. Qed.

Lemma floor_bounds (q : Q) : Math_floor q <= q /\ q - 1 < Math_floor q.
Proof.
  unfold Math_floor. split; [apply Qfloor_le|].
  pose proof (Qlt_floor q) as H. rewrite inject_Z_plus in H.
  change (inject_Z 1) with 1 in H. lra.
Qed.

(** ** What [updatePosition] leaves alone *)

Lemma same_constants_refl (p : Confetti) : same_constants p p.
Proof. constructor; reflexivity. Qed.

Lemma same_constants_trans (p q r : Confetti) :
  same_constants p q -> same_constants q r -> same_constants p r.
Proof.
  intros [] []; constructor; etransitivity; eassumption.
Qed.

Lemma updatePosition_constants (deltaTime currentTime : Q) (p : Confetti) :
  same_constants p (updatePosition deltaTime currentTime p)
  /\ svgIcon (updatePosition deltaTime currentTime p) = svgIcon p.
Proof.
  split; [constructor|]; update_paths; reflexivity.
Qed.

Lemma updates_constants (p : Confetti) (calls : list (Q * Q)) :
  same_constants p (updates p calls) /\ svgIcon (updates p calls) = svgIcon p.
Proof.
  revert p. induction calls as [|[dt now] calls IH]; intro p.
  - split; [apply same_constants_refl | reflexivity].
  - cbn [updates fold_left fst snd].
    destruct (updatePosition_constants dt now p) as [Hc Hi].
    destruct (IH (updatePosition dt now p)) as [Hc' Hi'].
    split.
    + eapply same_constants_trans; eassumption.
    + unfold updates in Hi'. rewrite Hi'. exact Hi.
Qed.

Lemma updatePosition_speed_x (deltaTime currentTime : Q) (p : Confetti) :
  x (speed (updatePosition deltaTime currentTime p)) = dragged_speed_x deltaTime p.
Proof.
  unfold dragged_speed_x. update_paths; reflexivity.
Qed.

(** The vertical position is recomputed from the launch data and the age. *)
Lemma updatePosition_position_y (deltaTime currentTime : Q) (p : Confetti) :
  y (position (updatePosition deltaTime currentTime p)) =
  y (initialPosition p) - y (speed p) * absSin p * (currentTime - createdAt p) +
  (0.00125 * Math_pow (currentTime - createdAt p) 2) / 2.
Proof.
  update_paths; reflexivity.
Qed.

Lemma updatePosition_position_x (deltaTime currentTime : Q) (p : Confetti) :
  x (position (updatePosition deltaTime currentTime p)) =
  x (position p) +
  dragged_speed_x deltaTime p *
  (match direction p with DirLeft => - absCos p | DirRight => absCos p end) *
  deltaTime.
Proof.
  unfold dragged_speed_x. update_paths; reflexivity.
Qed.

(** ** Vertical and horizontal motion *)

(** C2. After [updatePosition(deltaTime, currentTime)] the vertical position is
    [initialPosition.y - speed.y * absSin * elapsed + 0.000625 * elapsed^2]
    with [elapsed = currentTime - createdAt]: it is the same for every
    [deltaTime] and after any number of earlier updates.  The horizontal
    position advances by [speed.x * (+-absCos) * deltaTime], [speed.x] being
    the speed this update has just dragged, negative for direction left. *)
Theorem updatePosition_vertical_by_age_horizontal_by_frame :
  forall (p : Confetti) (deltaTime currentTime : Q),
    let elapsed := currentTime - createdAt p in
    let p' := updatePosition deltaTime currentTime p in
    y (position p') ==
      y (initialPosition p) - y (speed p) * absSin p * elapsed
      + 0.000625 * elapsed ^ 2
    /\ x (position p') ==
         x (position p) +
         x (speed p') *
         (match direction p with DirLeft => - absCos p | DirRight => absCos p end) *
         deltaTime
    /\ (forall deltaTime' : Q,
          y (position (updatePosition deltaTime' currentTime p)) = y (position p'))
    /\ (forall (earlier : list (Q * Q)) (deltaTime' : Q),
          y (position (updatePosition deltaTime' currentTime (updates p earlier)))
          = y (position p')).
Proof.
  intros p deltaTime currentTime elapsed p'. subst p' elapsed.
  repeat split.
  - rewrite updatePosition_position_y. unfold Math_pow. simpl Qpower. field.
  - rewrite updatePosition_position_x, updatePosition_speed_x. reflexivity.
  - intro deltaTime'. rewrite !updatePosition_position_y. reflexivity.
  - intros earlier deltaTime'. rewrite !updatePosition_position_y.
    destruct (updates_constants p earlier) as [[] _].
    congruence.
Qed.

(** ** The drag floor *)

Lemma updates_cons (p : Confetti) (call : Q * Q) (calls : list (Q * Q)) :
  updates p (call :: calls) =
  updates (updatePosition (fst call) (snd call) p) calls.
Proof. reflexivity. Qed.

Lemma updates_snoc (p : Confetti) (calls : list (Q * Q)) (call : Q * Q) :
  updates p (calls ++ [call]) =
  updatePosition (fst call) (snd call) (updates p calls).
Proof. unfold updates. rewrite fold_left_app. reflexivity. Qed.

Lemma dragged_speed_x_at_floor (deltaTime : Q) (p : Confetti) :
  x (speed p) <= finalSpeedX p -> dragged_speed_x deltaTime p = x (speed p).
Proof.
  intro H. unfold dragged_speed_x.
  destruct (Qltb (finalSpeedX p) (x (speed p))) eqn:E; [|reflexivity].
  apply Qltb_lt in E. exfalso. apply (Qlt_not_le _ _ E). exact H.
Qed.

(** C4. Once [speed.x <= finalSpeedX], no sequence of updates, whatever its
    [deltaTime] values (large, and even negative), changes [speed.x] or
    [finalSpeedX]: [speed.x] never exceeds [finalSpeedX] again. *)
Theorem speed_x_never_exceeds_finalSpeedX_again :
  forall (p : Confetti) (calls : list (Q * Q)),
    x (speed p) <= finalSpeedX p ->
    x (speed (updates p calls)) <= finalSpeedX (updates p calls)
    /\ x (speed (updates p calls)) = x (speed p)
    /\ finalSpeedX (updates p calls) = finalSpeedX p.
Proof.
  intros p calls. revert p.
  induction calls as [|[dt now] calls IH]; intros p H.
  - repeat split. exact H.
  - rewrite updates_cons. cbn [fst snd].
    assert (Hx : x (speed (updatePosition dt now p)) = x (speed p)).
    { rewrite updatePosition_speed_x. apply dragged_speed_x_at_floor, H. }
    assert (Hf : finalSpeedX (updatePosition dt now p) = finalSpeedX p).
    { apply (updatePosition_constants dt now p). }
    destruct (IH (updatePosition dt now p)) as (H1 & H2 & H3).
    { rewrite Hx, Hf. exact H. }
    repeat split; [exact H1 | congruence | congruence].
Qed.

Lemma speed_x_never_exceeds_finalSpeedX_again_witness :
  let p := updates (drifting_particle 0.3 0.4)
             [(16, 1016); (100000, 101016); (-50, 100966)] in
  x (speed p) <= finalSpeedX p /\ x (speed p) = 0.3.
Proof.
  destruct (speed_x_never_exceeds_finalSpeedX_again (drifting_particle 0.3 0.4)
              [(16, 1016); (100000, 101016); (-50, 100966)])
    as (H1 & H2 & _).
  - cbn [drifting_particle speed finalSpeedX x]. lra.
  - intro p. exact (conj H1 H2).
Defined.

(** The drag step does not stop at the floor: from above it, one long frame
    takes [speed.x] below [finalSpeedX], where it then stays. *)
Remark drag_step_can_undershoot_the_floor :
  let p := updatePosition 2000 3000 (drifting_particle 1 0.5) in
  x (speed p) == 0 /\ x (speed p) < finalSpeedX p.
Proof.
  vm_compute. split; reflexivity.
Qed.

(** ** The tumble *)

Lemma tumble_step_nonneg (deltaTime : Q) (p : Confetti) :
  0 <= deltaTime -> 0 <= deltaTime * decayed_rotationSpeed deltaTime p.
Proof.
  intro H. apply Qmult_le_0_compat; [exact H | apply Math_max_zero_nonneg].
Qed.

Lemma updatePosition_radius_y_in_range (deltaTime currentTime : Q) (p : Confetti) :
  0 <= deltaTime ->
  radius_y_in_range p ->
  radius_y_in_range (updatePosition deltaTime currentTime p).
Proof.
  intros Hdt [Hlo Hhi].
  pose proof (tumble_step_nonneg deltaTime p Hdt) as Hstep.
  unfold decayed_rotationSpeed in Hstep.
  unfold radius_y_in_range. update_paths;
    repeat match goal with
           | H : Qleb _ _ = true |- _ => apply Qleb_le in H
           | H : Qleb _ _ = false |- _ => apply Qleb_gt in H
           end;
    try (split; lra).
Qed.

Lemma updates_radius_y_in_range (p : Confetti) (calls : list (Q * Q)) :
  Forall (fun call => 0 <= fst call) calls ->
  radius_y_in_range p ->
  radius_y_in_range (updates p calls).
Proof.
  intro Hcalls. revert p.
  induction Hcalls as [|call calls Hcall Hrest IH]; intros p Hp.
  - exact Hp.
  - rewrite updates_cons. apply IH.
    apply updatePosition_radius_y_in_range; assumption.
Qed.

(** What one update does to the tumble of a particle without glyph. *)
Lemma updatePosition_tumble_down (deltaTime currentTime : Q) (p : Confetti) :
  tumbles p = true ->
  radiusYDirection p = Down ->
  let q := updatePosition deltaTime currentTime p in
  let moved := y (radius p) - deltaTime * decayed_rotationSpeed deltaTime p in
  (moved <= 0 -> y (radius q) = 0 /\ radiusYDirection q = Up)
  /\ (0 < moved -> y (radius q) = moved /\ radiusYDirection q = Down).
Proof.
  intros Ht Hd q moved. subst q moved.
  unfold tumbles in Ht. unfold decayed_rotationSpeed.
  unfold updatePosition; fields.
  destruct (Qltb (finalSpeedX p) (x (speed p))); fields; rewrite Ht, Hd; fields.
  all:
  match goal with |- context [Qleb ?a ?b] => destruct (Qleb a b) eqn:E end;
    [apply Qleb_le in E | apply Qleb_gt in E]; fields;
    split; intro H; try (split; [reflexivity | assumption || reflexivity]);
    exfalso; lra.
Qed.

Lemma updatePosition_tumble_up (deltaTime currentTime : Q) (p : Confetti) :
  tumbles p = true ->
  radiusYDirection p = Up ->
  let q := updatePosition deltaTime currentTime p in
  let moved := y (radius p) + deltaTime * decayed_rotationSpeed deltaTime p in
  (initialRadius p <= moved ->
   y (radius q) = initialRadius p /\ radiusYDirection q = Down)
  /\ (moved < initialRadius p -> y (radius q) = moved /\ radiusYDirection q = Up).
Proof.
  intros Ht Hd q moved. subst q moved.
  unfold tumbles in Ht. unfold decayed_rotationSpeed.
  unfold updatePosition; fields.
  destruct (Qltb (finalSpeedX p) (x (speed p))); fields; rewrite Ht, Hd; fields.
  all:
  match goal with |- context [Qleb ?a ?b] => destruct (Qleb a b) eqn:E end;
    [apply Qleb_le in E | apply Qleb_gt in E]; fields;
    split; intro H; try (split; [reflexivity | assumption || reflexivity]);
    exfalso; lra.
Qed.

(** ** What the constructor builds *)

Lemma Confetti_new_fixed_fields (host : Host) (initialPosition0 : XY)
    (direction0 : Direction) (radius0 : Q) (colors emojis : list string)
    (icon : option string) (c : Calls) :
  let p := fst (Confetti_new host initialPosition0 direction0 radius0
                  colors emojis icon c) in
  radius p = {| x := radius0; y := radius0 |}
  /\ initialRadius p = radius0
  /\ radiusYDirection p = Down
  /\ svgIcon p = None
  /\ direction p = direction0
  /\ initialPosition p = position p
  /\ (glyph_requested emojis icon = true -> rotationSpeed p = 0.01).
Proof.
  intro p. subst p.
  split; [|split; [|split; [|split; [|split; [|split]]]]];
    try (construct; reflexivity).
  intro G. construct; solve [reflexivity | discriminate].
Qed.

Lemma Confetti_new_color (host : Host) (initialPosition0 : XY)
    (direction0 : Direction) (radius0 : Q) (colors emojis : list string)
    (icon : option string) (c : Calls) :
  let p := fst (Confetti_new host initialPosition0 direction0 radius0
                  colors emojis icon c) in
  if glyph_requested emojis icon
  then color p = None
  else exists k, color p = picked colors (random_oracle host k).
Proof.
  intro p. subst p. unfold picked.
  construct; solve [reflexivity | eexists; reflexivity].
Qed.

Lemma Confetti_new_emoji (host : Host) (initialPosition0 : XY)
    (direction0 : Direction) (radius0 : Q) (colors emojis : list string)
    (icon : option string) (c : Calls) :
  let p := fst (Confetti_new host initialPosition0 direction0 radius0
                  colors emojis icon c) in
  match emojis with
  | [] => emoji p = None
  | _ :: _ => exists k, emoji p = picked emojis (random_oracle host k)
  end.
Proof.
  intro p. subst p. unfold picked.
  destruct emojis as [|e emojis].
  - construct; solve [reflexivity | discriminate].
  - construct; solve [eexists; reflexivity | discriminate].
Qed.

Lemma Confetti_new_svgImage (host : Host) (initialPosition0 : XY)
    (direction0 : Direction) (radius0 : Q) (colors emojis : list string)
    (icon : option string) (c : Calls) :
  let p := fst (Confetti_new host initialPosition0 direction0 radius0
                  colors emojis icon c) in
  if truthy icon
  then exists s, icon = Some s /\ svgImage p = Some {| src := s |}
  else svgImage p = None.
Proof.
  intro p. subst p.
  destruct icon as [[|a s]|]; cbn [truthy].
  - construct; solve [reflexivity | discriminate].
  - exists (String a s). split; [reflexivity|].
    construct; solve [reflexivity | discriminate].
  - construct; solve [reflexivity | discriminate].
Qed.

(** [getRandomItem] on a non-empty array returns one of its entries. *)
Lemma picked_in {A : Type} (array : list A) (r : Q) :
  array <> [] -> 0 <= r -> r < 1 ->
  exists a, picked array r = Some a /\ In a array.
Proof.
  intros Hne H0 H1. unfold picked, js_index, array_length.
  set (n := Z.of_nat (List.length array)).
  assert (Hn : (0 < n)%Z).
  { subst n. destruct array; [congruence | cbn [List.length]; lia]. }
  assert (Hlo : (0 <= Qfloor (r * inject_Z n))%Z).
  { change 0%Z with (Qfloor 0). apply Qfloor_resp_le.
    apply Qmult_le_0_compat; [exact H0|].
    change 0 with (inject_Z 0). rewrite <- Zle_Qle. lia. }
  assert (Hhi : (Qfloor (r * inject_Z n) < n)%Z).
  { rewrite Zlt_Qlt. eapply Qle_lt_trans; [apply Qfloor_le|].
    assert (Hq : 0 < inject_Z n).
    { change 0 with (inject_Z 0). rewrite <- Zlt_Qlt. exact Hn. }
    rewrite <- (Qmult_1_l (inject_Z n)) at 2.
    apply Qmult_lt_compat_r; assumption. }
  destruct (Z.ltb_spec (Qfloor (r * inject_Z n)) 0) as [Hneg|_]; [lia|].
  destruct (nth_error array (Z.to_nat (Qfloor (r * inject_Z n)))) as [a|] eqn:E.
  - exists a. split; [reflexivity|]. eapply nth_error_In, E.
  - exfalso. apply nth_error_None in E. subst n. lia.
Qed.

Lemma glyph_requested_true (emojis : list string) (icon : option string) :
  glyph_requested emojis icon = true <-> emojis <> [] \/ truthy icon = true.
Proof.
  unfold glyph_requested. rewrite orb_true_iff.
  destruct emojis as [|e emojis]; cbn [List.length Nat.eqb negb].
  - split; intros [H|H]; solve [discriminate | congruence | right; exact H].
  - split; intros _; left; [discriminate | reflexivity].
Qed.

Lemma glyph_requested_false (emojis : list string) (icon : option string) :
  glyph_requested emojis icon = false <-> emojis = [] /\ truthy icon = false.
Proof.
  unfold glyph_requested. rewrite orb_false_iff.
  destruct emojis as [|e emojis]; cbn [List.length Nat.eqb negb].
  - split; intros [_ H]; split; solve [reflexivity | exact H].
  - split; intros [H _]; discriminate.
Qed.

Lemma demo_random_in_unit : random_in_unit demo_host.
Proof.
  intro k. cbn [demo_host random_oracle]. unfold Qle, Qlt.
  cbn [Qnum Qden]. split; lia.
Defined.

(** C5. A particle created without glyph (no emojis, no icon) and with a
    non-negative radius keeps [0 <= radius.y <= initialRadius] after every
    sequence of updates with non-negative [deltaTime]; from there an update
    whose step reaches an end of the range stops exactly at that end (0 going
    down, [initialRadius] going up) and flips [radiusYDirection]. *)
Theorem radius_y_stays_between_zero_and_initialRadius :
  forall (host : Host) (c : Calls) (initialPosition0 : XY)
         (direction0 : Direction) (radius0 : Q) (colors emojis : list string)
         (icon : option string) (calls : list (Q * Q)),
    glyph_requested emojis icon = false ->
    0 <= radius0 ->
    Forall (fun call => 0 <= fst call) calls ->
    let p := updates (fst (Confetti_new host initialPosition0 direction0
                             radius0 colors emojis icon c)) calls in
    initialRadius p = radius0
    /\ 0 <= y (radius p)
    /\ y (radius p) <= initialRadius p
    /\ forall deltaTime currentTime : Q,
         let q := updatePosition deltaTime currentTime p in
         let stride := deltaTime * decayed_rotationSpeed deltaTime p in
         (radiusYDirection p = Down -> y (radius p) - stride <= 0 ->
          y (radius q) = 0 /\ radiusYDirection q = Up)
         /\ (radiusYDirection p = Up -> initialRadius p <= y (radius p) + stride ->
             y (radius q) = initialRadius p /\ radiusYDirection q = Down).
Proof.
  intros host c initialPosition0 direction0 radius0 colors emojis icon calls
    G Hr Hcalls p.
  set (p0 := fst (Confetti_new host initialPosition0 direction0 radius0
                    colors emojis icon c)) in *.
  destruct (Confetti_new_fixed_fields host initialPosition0 direction0 radius0
              colors emojis icon c) as (Hrad & Hinit & _ & Hicon & _).
  fold p0 in Hrad, Hinit, Hicon.
  pose proof (Confetti_new_emoji host initialPosition0 direction0 radius0
                colors emojis icon c) as Hemoji.
  cbv zeta in Hemoji. fold p0 in Hemoji.
  apply glyph_requested_false in G. destruct G as [-> _].
  destruct (updates_constants p0 calls) as [Hsame Hicon'].
  fold p in Hsame, Hicon'.
  assert (Hrange : radius_y_in_range p).
  { apply updates_radius_y_in_range; [exact Hcalls|].
    unfold radius_y_in_range. rewrite Hrad, Hinit. cbn [y]. split; lra. }
  assert (Ht : tumbles p = true).
  { unfold tumbles. rewrite Hicon', Hicon, (same_emoji _ _ Hsame), Hemoji.
    reflexivity. }
  split; [rewrite (same_initialRadius _ _ Hsame); exact Hinit|].
  split; [apply Hrange|]. split; [apply Hrange|].
  intros deltaTime currentTime q stride. subst q stride.
  split; intros Hd Hend.
  - apply (updatePosition_tumble_down deltaTime currentTime p Ht Hd). exact Hend.
  - apply (updatePosition_tumble_up deltaTime currentTime p Ht Hd). exact Hend.
Qed.

Lemma radius_y_stays_between_zero_and_initialRadius_witness :
  let p := updates (fst (Confetti_new demo_host {| x := 0; y := 770 |} DirRight
                           4 (confettiColors defaultConfettiConfig) [] None
                           no_calls))
                   [(16, 1016); (5000, 6016); (16, 6032)] in
  initialRadius p = 4 /\ 0 <= y (radius p) /\ y (radius p) <= initialRadius p.
Proof.
  pose proof (radius_y_stays_between_zero_and_initialRadius demo_host no_calls
                {| x := 0; y := 770 |} DirRight 4
                (confettiColors defaultConfettiConfig) [] None
                [(16, 1016); (5000, 6016); (16, 6032)]) as H.
  destruct H as (H1 & H2 & H3 & _).
  - reflexivity.
  - lra.
  - repeat constructor; cbn [fst]; lra.
  - intro p. exact (conj H1 (conj H2 H3)).
Defined.

(** ** Visual identity *)

(** C8. With a non-empty [colors] and [Math.random()] in [0, 1): [color] is
    [null] exactly when [emojis] is non-empty or an icon is supplied, and is
    otherwise one of [colors]; [emoji] is one of [emojis] when [emojis] is
    non-empty and [null] otherwise; a new particle never has both a color and
    a glyph (an emoji or an icon image). *)
Theorem constructor_sets_color_or_glyph :
  forall (host : Host) (c : Calls) (initialPosition0 : XY)
         (direction0 : Direction) (radius0 : Q) (colors emojis : list string)
         (icon : option string),
    random_in_unit host ->
    colors <> [] ->
    let p := fst (Confetti_new host initialPosition0 direction0 radius0
                    colors emojis icon c) in
    (color p = None <-> emojis <> [] \/ truthy icon = true)
    /\ (emojis = [] -> truthy icon = false ->
        exists col, color p = Some col /\ In col colors)
    /\ (emojis <> [] -> exists e, emoji p = Some e /\ In e emojis)
    /\ (emojis = [] -> emoji p = None)
    /\ (color p = None
        \/ (emoji p = None /\ svgImage p = None /\ svgIcon p = None)).
Proof.
  intros host c initialPosition0 direction0 radius0 colors emojis icon
    Hrandom Hcolors p.
  pose proof (Confetti_new_color host initialPosition0 direction0 radius0
                colors emojis icon c) as Hcolor.
  pose proof (Confetti_new_emoji host initialPosition0 direction0 radius0
                colors emojis icon c) as Hemoji.
  pose proof (Confetti_new_svgImage host initialPosition0 direction0 radius0
                colors emojis icon c) as Himage.
  destruct (Confetti_new_fixed_fields host initialPosition0 direction0 radius0
              colors emojis icon c) as (_ & _ & _ & Hicon & _).
  cbv zeta in Hcolor, Hemoji, Himage. fold p in Hcolor, Hemoji, Himage, Hicon.
  assert (Hpick : glyph_requested emojis icon = false ->
                  exists col, color p = Some col /\ In col colors).
  { intro G. rewrite G in Hcolor. destruct Hcolor as [k Hk].
    destruct (picked_in colors (random_oracle host k) Hcolors) as (col & E & Hin);
      try apply Hrandom.
    exists col. split; [congruence | exact Hin]. }
  split; [|split; [|split; [|split]]].
  - rewrite <- glyph_requested_true.
    destruct (glyph_requested emojis icon) eqn:G.
    + split; [reflexivity | intros _; exact Hcolor].
    + destruct (Hpick eq_refl) as (col & E & _).
      split; [congruence | discriminate].
  - intros He Hi. apply Hpick, glyph_requested_false. split; assumption.
  - intro Hne. destruct emojis as [|e0 emojis]; [congruence|].
    destruct Hemoji as [k Hk].
    destruct (picked_in (e0 :: emojis) (random_oracle host k) Hne) as (e & E & Hin);
      try apply Hrandom.
    exists e. split; [congruence | exact Hin].
  - intros ->. exact Hemoji.
  - destruct (glyph_requested emojis icon) eqn:G.
    + left. exact Hcolor.
    + right. apply glyph_requested_false in G. destruct G as [-> Hi].
      rewrite Hi in Himage. repeat split; assumption.
Qed.

Lemma constructor_sets_color_or_glyph_witness :
  let p := fst (Confetti_new demo_host {| x := 0; y := 770 |} DirRight 4
                  (confettiColors defaultConfettiConfig) [] None no_calls) in
  (color p = None <-> @nil string <> [] \/ truthy None = true)
  /\ exists col, color p = Some col
                 /\ In col (confettiColors defaultConfettiConfig).
Proof.
  pose proof (constructor_sets_color_or_glyph demo_host no_calls
                {| x := 0; y := 770 |} DirRight 4
                (confettiColors defaultConfettiConfig) [] None
                demo_random_in_unit) as H.
  destruct H as (H1 & H2 & _).
  - discriminate.
  - intro p. split; [exact H1 | apply H2; reflexivity].
Defined.

(** ** The frame step *)

Lemma isVisible_iff (canvasHeight : Q) (p : Confetti) :
  isVisible canvasHeight p = true <-> y (position p) < canvasHeight + 100.
Proof. apply Qltb_lt. Qed.

Lemma filter_frame_kept (host : Host) (deltaTime currentTime canvasHeight : Q)
    (items : list Confetti) :
  fst (filter_frame host deltaTime currentTime canvasHeight items) =
  filter (isVisible canvasHeight) (map (updatePosition deltaTime currentTime) items).
Proof.
  induction items as [|item rest IH]; [reflexivity|].
  cbn [filter_frame map filter].
  destruct (filter_frame host deltaTime currentTime canvasHeight rest)
    as [kept ops].
  cbn [fst] in *. rewrite IH. reflexivity.
Qed.

Lemma loop_result (host : Host) (m : ConfettiManager) (c : Calls) :
  let currentTime := clock_oracle host (nowCalls c) in
  let deltaTime := currentTime - lastUpdated m in
  let m' := fst (fst (loop host m c)) in
  canvas m' = canvas m
  /\ lastUpdated m' = currentTime
  /\ confetti m' =
     filter (isVisible (height (canvas m)))
       (map (updatePosition deltaTime currentTime) (confetti m)).
Proof.
  intros currentTime deltaTime m'. subst m'.
  unfold loop, bind, ret, Date_now.
  cbn [set_lastUpdated canvas confetti lastUpdated].
  fold currentTime. fold deltaTime.
  pose proof (filter_frame_kept host deltaTime currentTime (height (canvas m))
                (confetti m)) as Hkept.
  destruct (filter_frame host deltaTime currentTime (height (canvas m))
              (confetti m)) as [kept ops].
  cbn [fst snd set_confetti canvas confetti lastUpdated] in *.
  repeat split. exact Hkept.
Qed.

Lemma loop_membership (host : Host) (m : ConfettiManager) (c : Calls) :
  let currentTime := clock_oracle host (nowCalls c) in
  let deltaTime := currentTime - lastUpdated m in
  forall q : Confetti,
    In q (confetti (fst (fst (loop host m c)))) <->
    (exists p, In p (confetti m) /\ q = updatePosition deltaTime currentTime p)
    /\ y (position q) < height (canvas m) + 100.
Proof.
  intros currentTime deltaTime q.
  destruct (loop_result host m c) as (_ & _ & Hlive).
  fold currentTime deltaTime in Hlive.
  rewrite Hlive, filter_In, in_map_iff, isVisible_iff.
  split; intros [[p [H1 H2]] H3]; (split; [exists p|exact H3]); intuition.
Qed.

(** C3. [isVisible(canvasHeight)] is true exactly when
    [position.y < canvasHeight + 100].  A frame updates every live particle
    and keeps exactly those whose updated position passes that test, so a
    particle is dropped in the very frame whose update takes it to or past
    the bound, and after every frame all live particles are within it. *)
Theorem loop_keeps_exactly_the_visible_particles :
  forall (host : Host) (m : ConfettiManager) (c : Calls),
    let currentTime := clock_oracle host (nowCalls c) in
    let deltaTime := currentTime - lastUpdated m in
    let m' := fst (fst (loop host m c)) in
    (forall (canvasHeight : Q) (p : Confetti),
        isVisible canvasHeight p = true <-> y (position p) < canvasHeight + 100)
    /\ confetti m' =
       filter (isVisible (height (canvas m)))
         (map (updatePosition deltaTime currentTime) (confetti m))
    /\ (forall q : Confetti,
          In q (confetti m') <->
          (exists p, In p (confetti m)
                     /\ q = updatePosition deltaTime currentTime p)
          /\ y (position q) < height (canvas m) + 100)
    /\ Forall (fun q => y (position q) < height (canvas m') + 100) (confetti m').
Proof.
  intros host m c currentTime deltaTime m'.
  destruct (loop_result host m c) as (Hcanvas & _ & Hlive).
  fold currentTime deltaTime m' in Hcanvas, Hlive.
  split; [exact isVisible_iff|]. split; [exact Hlive|].
  pose proof (loop_membership host m c) as Hin.
  cbv zeta in Hin. fold currentTime deltaTime m' in Hin.
  split; [exact Hin|].
  apply Forall_forall. intros q Hq. rewrite Hcanvas. apply Hin, Hq.
Qed.

(** ** Resizing *)

Lemma canvas_attribute_in_range (default : Z) (v : Q) :
  0 <= v -> v < 2147483648 -> canvas_attribute default v = Math_floor v.
Proof.
  intros Hlo Hhi. unfold canvas_attribute, ToUint32, Math_floor.
  apply Qle_bool_iff in Hlo as Hpos. rewrite Hpos.
  assert (H0 : (0 <= Qfloor v)%Z).
  { change 0%Z with (Qfloor 0). apply Qfloor_resp_le, Hlo. }
  assert (H1 : (Qfloor v < 2147483648)%Z).
  { rewrite Zlt_Qlt. eapply Qle_lt_trans; [apply Qfloor_le | exact Hhi]. }
  change (2 ^ 32)%Z with 4294967296%Z.
  rewrite Z.mod_small by lia.
  destruct (Z.leb_spec (Qfloor v) 2147483647); [reflexivity | lia].
Qed.

(** C7, as stated, fails when a product is not whole.  On a 1001 by 851
    window at device pixel ratio 1.5 the canvas reads back 1501 by 1276, not
    1501.5 by 1276.5. *)
Lemma resizeCanvas_fractional_product_counterexample :
  let m := resizeCanvas fractional_host
             (fst (ConfettiManager_new fractional_host no_calls)) in
  canvas m = {| width := 1501; height := 1276 |}
  /\ 1001 * 1.5 == 1501.5
  /\ 851 * 1.5 == 1276.5
  /\ ~ width (canvas m)
       == innerWidth (window fractional_host)
          * devicePixelRatio (window fractional_host)
  /\ ~ height (canvas m)
       == innerHeight (window fractional_host)
          * devicePixelRatio (window fractional_host).
Proof.
  vm_compute.
  repeat split; solve [reflexivity | intro H; discriminate H].
Qed.

(** C7, amended.  After [resizeCanvas] the canvas measures the whole parts of
    [innerWidth * devicePixelRatio] and [innerHeight * devicePixelRatio] (for
    products from 0 up to, not including, 2^31), whatever it measured before:
    less than one below the product, and the product itself when that is a
    whole number.  The particles and the frame clock are left alone, and
    resizing again under the same window changes nothing. *)
Theorem resizeCanvas_stores_whole_device_pixels_and_is_idempotent :
  forall (host : Host) (m : ConfettiManager),
    let w := innerWidth (window host) in
    let h := innerHeight (window host) in
    let dpr := devicePixelRatio (window host) in
    let m' := resizeCanvas host m in
    (0 <= w * dpr -> w * dpr < 2147483648 ->
     width (canvas m') = Math_floor (w * dpr)
     /\ width (canvas m') <= w * dpr
     /\ w * dpr - 1 < width (canvas m')
     /\ (forall k : Z, w * dpr == inject_Z k -> width (canvas m') == w * dpr))
    /\ (0 <= h * dpr -> h * dpr < 2147483648 ->
        height (canvas m') = Math_floor (h * dpr)
        /\ height (canvas m') <= h * dpr
        /\ h * dpr - 1 < height (canvas m')
        /\ (forall k : Z, h * dpr == inject_Z k -> height (canvas m') == h * dpr))
    /\ confetti m' = confetti m
    /\ lastUpdated m' = lastUpdated m
    /\ resizeCanvas host m' = m'.
Proof.
  intros host m w h dpr m'.
  assert (Hdim : forall (default : Z) (v : Q),
             0 <= v -> v < 2147483648 ->
             canvas_attribute default v = Math_floor v
             /\ canvas_attribute default v <= v
             /\ v - 1 < canvas_attribute default v
             /\ (forall k : Z, v == inject_Z k -> canvas_attribute default v == v)).
  { intros default v Hlo Hhi.
    rewrite (canvas_attribute_in_range default v Hlo Hhi).
    destruct (floor_bounds v) as [Hle Hgt].
    split; [reflexivity|]. split; [exact Hle|]. split; [exact Hgt|].
    intros k Hk. unfold Math_floor.
    rewrite (Qfloor_comp _ _ Hk), Qfloor_Z. symmetry. exact Hk. }
  split; [intros Hlo Hhi; apply (Hdim 300%Z (w * dpr) Hlo Hhi)|].
  split; [intros Hlo Hhi; apply (Hdim 150%Z (h * dpr) Hlo Hhi)|].
  repeat split.
Qed.

Lemma resizeCanvas_stores_whole_device_pixels_and_is_idempotent_witness :
  let m := resizeCanvas fractional_host
             (fst (ConfettiManager_new fractional_host no_calls)) in
  width (canvas m) = Math_floor (1001 * 1.5)
  /\ height (canvas m) = Math_floor (851 * 1.5)
  /\ resizeCanvas fractional_host m = m.
Proof.
  intro m.
  destruct (resizeCanvas_stores_whole_device_pixels_and_is_idempotent
              fractional_host
              (fst (ConfettiManager_new fractional_host no_calls)))
    as (Hw & Hh & _ & _ & Hi).
  destruct Hw as [Hw _]; [vm_compute; discriminate | reflexivity |].
  destruct Hh as [Hh _]; [vm_compute; discriminate | reflexivity |].
  exact (conj Hw (conj Hh Hi)).
Defined.

(** ** Culling height *)

Lemma draw_color_particle (host : Host) (p : Confetti) :
  svgIcon p = None -> truthy (color p) = true ->
  In (Ellipse (x (position p) * devicePixelRatio (window host))
              (y (position p) * devicePixelRatio (window host))
              (x (radius p) * devicePixelRatio (window host))
              (y (radius p) * devicePixelRatio (window host))
              (rotationAngle p) 0 (2 * Math_PI host))
     (draw host p).
Proof.
  intros Hi Hc. unfold draw. rewrite Hi, Hc. cbn. auto.
Qed.

(** C10, as stated, fails when [innerHeight * devicePixelRatio] is not whole.
    On an 851 high window at ratio 1.5 the canvas is 1276 high: a particle
    whose updated [position.y] is 1376.25, below 851 * 1.5 + 100 = 1376.5, is
    removed by the frame. *)
Lemma loop_culls_below_the_scaled_height_counterexample :
  let m := resizeCanvas fractional_host
             (fst (ConfettiManager_new fractional_host no_calls)) in
  let c := {| randomCalls := 0; nowCalls := 1 |} in
  let currentTime := clock_oracle fractional_host (nowCalls c) in
  let p := resting_particle 1376.25 currentTime in
  let p' := updatePosition (currentTime - lastUpdated m) currentTime p in
  height (canvas m) = 1276
  /\ y (position p') == 1376.25
  /\ y (position p')
     < innerHeight (window fractional_host)
       * devicePixelRatio (window fractional_host) + 100
  /\ confetti (fst (fst (loop fractional_host (set_confetti [p] m) c))) = [].
Proof.
  vm_compute. repeat split.
Qed.

(** C10, amended.  After a resize the frame step tests visibility against the
    height the canvas stores, the whole part of
    [innerHeight * devicePixelRatio] (for a product from 0 up to, not
    including, 2^31), while positions are unscaled ([draw] multiplies them by
    the ratio): a frame keeps a particle exactly while its updated
    [position.y < floor(innerHeight * devicePixelRatio) + 100].  When the
    product is at least [innerHeight + 1], live particles at or past
    [innerHeight + 100] are kept, and there are such particles. *)
Theorem loop_culls_at_the_stored_canvas_height :
  forall (host : Host) (m : ConfettiManager) (c : Calls),
    let h := innerHeight (window host) in
    let dpr := devicePixelRatio (window host) in
    let m1 := resizeCanvas host m in
    let currentTime := clock_oracle host (nowCalls c) in
    let deltaTime := currentTime - lastUpdated m1 in
    let m2 := fst (fst (loop host m1 c)) in
    0 <= h * dpr ->
    h * dpr < 2147483648 ->
    height (canvas m1) = Math_floor (h * dpr)
    /\ (forall p : Confetti,
          svgIcon p = None -> truthy (color p) = true ->
          exists rx ry rot a0 a1,
            In (Ellipse (x (position p) * dpr) (y (position p) * dpr)
                        rx ry rot a0 a1)
               (draw host p))
    /\ (forall q : Confetti,
          In q (confetti m2) <->
          (exists p, In p (confetti m)
                     /\ q = updatePosition deltaTime currentTime p)
          /\ y (position q) < Math_floor (h * dpr) + 100)
    /\ (h + 1 <= h * dpr ->
        (forall p : Confetti,
            In p (confetti m) ->
            h + 100 <= y (position (updatePosition deltaTime currentTime p)) ->
            y (position (updatePosition deltaTime currentTime p))
            < Math_floor (h * dpr) + 100 ->
            In (updatePosition deltaTime currentTime p) (confetti m2))
        /\ exists p : Confetti,
            let kept := confetti (fst (fst (loop host (set_confetti [p] m1) c))) in
            kept = [updatePosition deltaTime currentTime p]
            /\ h + 100 <= y (position (updatePosition deltaTime currentTime p))).
Proof.
  intros host m c h dpr m1 currentTime deltaTime m2 Hlo Hhi.
  assert (Hheight : height (canvas m1) = Math_floor (h * dpr)).
  { apply (canvas_attribute_in_range 150%Z (h * dpr) Hlo Hhi). }
  pose proof (loop_membership host m1 c) as Hin.
  cbv zeta in Hin. fold currentTime deltaTime m2 in Hin.
  change (confetti m1) with (confetti m) in Hin.
  rewrite Hheight in Hin.
  split; [exact Hheight|]. split.
  { intros p Hi Hc. do 5 eexists. apply draw_color_particle; assumption. }
  split; [exact Hin|].
  intros Hdpr. split.
  - intros p Hp Hpast Hbelow. apply Hin. split; [exists p; auto | exact Hbelow].
  - set (p := resting_particle (h + 100) currentTime).
    exists p.
    assert (Hy : y (position (updatePosition deltaTime currentTime p)) == h + 100).
    { rewrite updatePosition_position_y. subst p.
      cbn [resting_particle y speed initialPosition absSin createdAt].
      unfold Math_pow. simpl Qpower. field. }
    destruct (floor_bounds (h * dpr)) as [_ Hfloor].
    assert (Hvis : isVisible (height (canvas m1))
                     (updatePosition deltaTime currentTime p) = true).
    { apply isVisible_iff. rewrite Hy, Hheight. lra. }
    cbv zeta. split; [|rewrite Hy; lra].
    destruct (loop_result host (set_confetti [p] m1) c) as (_ & _ & Hlive).
    rewrite Hlive.
    change (filter (isVisible (height (canvas m1)))
              [updatePosition deltaTime currentTime p]
            = [updatePosition deltaTime currentTime p]).
    cbn [filter]. rewrite Hvis. reflexivity.
Qed.

Lemma loop_culls_at_the_stored_canvas_height_witness :
  let m := fst (ConfettiManager_new fractional_host no_calls) in
  height (canvas (resizeCanvas fractional_host m)) = Math_floor (851 * 1.5)
  /\ exists p : Confetti,
      confetti (fst (fst (loop fractional_host
                            (set_confetti [p] (resizeCanvas fractional_host m))
                            no_calls)))
      = [updatePosition (1000 - lastUpdated m) 1000 p]
      /\ 851 + 100 <= y (position (updatePosition (1000 - lastUpdated m) 1000 p)).
Proof.
  intro m.
  destruct (loop_culls_at_the_stored_canvas_height fractional_host m no_calls)
    as (Hheight & _ & _ & H).
  - vm_compute. discriminate.
  - reflexivity.
  - destruct H as [_ [p [H1 H2]]].
    + vm_compute. discriminate.
    + split; [exact Hheight|]. exists p. split; [exact H1 | exact H2].
Defined.

(** ** Bursts *)

Lemma loop_condition (i : Z) (bound : Q) :
  Qltb (inject_Z i) bound = true <-> (i < Qceiling bound)%Z.
Proof.
  rewrite Qltb_lt. split; intro H.
  - rewrite Zlt_Qlt. eapply Qlt_le_trans; [exact H | apply Qle_ceiling].
  - eapply Qle_lt_trans; [|apply Qceiling_lt].
    rewrite <- Zle_Qle. lia.
Qed.

Lemma addConfetti_loop_runs (host : Host) (settings : FullConfig) :
  forall (k fuel : nat) (i : Z) (live : list Confetti) (c : Calls),
    k = Z.to_nat (Qceiling (confettiesNumber settings / 2) - i) ->
    (k <= fuel)%nat ->
    addConfetti_loop host fuel i settings
      (5 * innerHeight (window host) / 7) live c =
    (Some (live ++ fst (spawn_pairs host k settings c)),
     snd (spawn_pairs host k settings c)).
Proof.
  induction k as [|k IH]; intros fuel i live c Hk Hfuel.
  - assert (Hcond : Qltb (inject_Z i) (confettiesNumber settings / 2) = false).
    { apply not_true_iff_false. rewrite loop_condition. lia. }
    cbn [spawn_pairs ret fst snd]. rewrite app_nil_r.
    destruct fuel; cbn [addConfetti_loop]; rewrite Hcond; reflexivity.
  - assert (Hcond : Qltb (inject_Z i) (confettiesNumber settings / 2) = true).
    { apply loop_condition. lia. }
    destruct fuel as [|fuel]; [lia|].
    cbn [addConfetti_loop spawn_pairs]. rewrite Hcond. unfold bind, ret.
    destruct (Confetti_new host {| x := 0; y := 5 * innerHeight (window host) / 7 |}
                DirRight (confettiRadius settings) (confettiColors settings)
                (emojies settings) (svgIconSrc settings) c) as [a c1].
    destruct (Confetti_new host
                {| x := innerWidth (window host);
                   y := 5 * innerHeight (window host) / 7 |}
                DirLeft (confettiRadius settings) (confettiColors settings)
                (emojies settings) (svgIconSrc settings) c1) as [b c2].
    rewrite (IH fuel (i + 1)%Z _ c2); [|lia|lia].
    destruct (spawn_pairs host k settings c2) as [rest c3].
    cbn [fst snd]. rewrite <- !app_assoc. reflexivity.
Qed.

Lemma addConfetti_runs (host : Host) (fuel : nat) (config : Config)
    (m : ConfettiManager) (c : Calls) :
  let settings := spread defaultConfettiConfig config in
  let perSide := pairs_spawned (confettiesNumber settings) in
  (perSide <= fuel)%nat ->
  addConfetti host fuel config m c =
  (Some (set_confetti (confetti m ++ fst (spawn_pairs host perSide settings c)) m),
   snd (spawn_pairs host perSide settings c)).
Proof.
  intros settings perSide Hfuel. unfold addConfetti, bind, ret.
  fold settings.
  rewrite (addConfetti_loop_runs host settings perSide fuel 0 (confetti m) c);
    [reflexivity | | exact Hfuel].
  unfold perSide, pairs_spawned. f_equal. lia.
Qed.

Lemma spawn_pairs_counts (host : Host) (settings : FullConfig) :
  forall (k : nat) (c : Calls),
    let burst := fst (spawn_pairs host k settings c) in
    List.length burst = (2 * k)%nat
    /\ count_direction DirRight burst = k
    /\ count_direction DirLeft burst = k.
Proof.
  induction k as [|k IH]; intro c; [repeat split|].
  cbn [spawn_pairs]. unfold bind, ret.
  pose proof (Confetti_new_fixed_fields host
                {| x := 0; y := 5 * innerHeight (window host) / 7 |} DirRight
                (confettiRadius settings) (confettiColors settings)
                (emojies settings) (svgIconSrc settings) c) as Ha.
  destruct (Confetti_new host {| x := 0; y := 5 * innerHeight (window host) / 7 |}
              DirRight (confettiRadius settings) (confettiColors settings)
              (emojies settings) (svgIconSrc settings) c) as [a c1].
  pose proof (Confetti_new_fixed_fields host
                {| x := innerWidth (window host);
                   y := 5 * innerHeight (window host) / 7 |} DirLeft
                (confettiRadius settings) (confettiColors settings)
                (emojies settings) (svgIconSrc settings) c1) as Hb.
  destruct (Confetti_new host
              {| x := innerWidth (window host);
                 y := 5 * innerHeight (window host) / 7 |}
              DirLeft (confettiRadius settings) (confettiColors settings)
              (emojies settings) (svgIconSrc settings) c1) as [b c2].
  cbn [fst] in Ha, Hb.
  destruct Ha as (_ & _ & _ & _ & Ha & _). destruct Hb as (_ & _ & _ & _ & Hb & _).
  specialize (IH c2).
  destruct (spawn_pairs host k settings c2) as [rest c3].
  cbn [fst] in *. destruct IH as (IH1 & IH2 & IH3).
  unfold count_direction in *. cbn [filter List.length]. rewrite Ha, Hb.
  cbn [Direction_eqb List.length]. repeat split; lia.
Qed.

Lemma pairs_spawned_integer (n : Z) :
  Z.of_nat (pairs_spawned (inject_Z n)) = Z.max 0 ((n + 1) / 2).
Proof.
  unfold pairs_spawned, Qceiling, Qfloor, Qdiv, Qmult, Qinv, Qopp, inject_Z.
  cbn [Qnum Qden Pos.mul Z.pos_sub].
  change (Z.pos (1 * 2)) with 2%Z. rewrite Z.mul_1_r.
  Z.div_mod_to_equations. lia.
Qed.

(** C1, as stated, fails for odd counts: [addConfetti({confettiesNumber: 5})]
    adds 6 particles, 3 of each direction, not [2 * floor(5/2) = 4]. *)
Lemma addConfetti_odd_count_counterexample :
  let m := fst (ConfettiManager_new demo_host no_calls) in
  let after := fst (addConfetti demo_host 10 (count_config 5) m no_calls) in
  growth m after = Some (6, 3, 3)%nat
  /\ (2 * Z.to_nat (Qfloor (5 / 2)) = 4)%nat
  /\ growth m after
     <> Some (2 * Z.to_nat (Qfloor (5 / 2)),
              Z.to_nat (Qfloor (5 / 2)),
              Z.to_nat (Qfloor (5 / 2)))%nat.
Proof.
  vm_compute. repeat split. discriminate.
Qed.

(** C1, amended.  [addConfetti] returns (given fuel for its iterations) and
    appends [2 * ceil(count / 2)] particles to the live collection, none when
    [count <= 0]: [ceil(count / 2)] pairs, each a particle of direction right
    launched from [(0, 5/7 * innerHeight)] followed by one of direction left
    launched from [(innerWidth, 5/7 * innerHeight)].  For an integer count
    that is [(count + 1) div 2] per side: an odd count rounds up, and a count
    of 10 gives 10 particles, 5 per direction. *)
Theorem addConfetti_spawns_ceil_half_count_per_side :
  forall (host : Host) (config : Config) (m : ConfettiManager) (c : Calls),
    let settings := spread defaultConfettiConfig config in
    let perSide := pairs_spawned (confettiesNumber settings) in
    let burst := fst (spawn_pairs host perSide settings c) in
    (forall fuel : nat,
        (perSide <= fuel)%nat ->
        exists m',
          fst (addConfetti host fuel config m c) = Some m'
          /\ confetti m' = confetti m ++ burst
          /\ growth m (Some m') = Some (2 * perSide, perSide, perSide)%nat)
    /\ List.length burst = (2 * perSide)%nat
    /\ count_direction DirRight burst = perSide
    /\ count_direction DirLeft burst = perSide
    /\ (forall n : Z,
          confettiesNumber settings = inject_Z n ->
          Z.of_nat perSide = Z.max 0 ((n + 1) / 2))
    /\ (confettiesNumber settings = 10 -> perSide = 5%nat).
Proof.
  intros host config m c settings perSide burst.
  destruct (spawn_pairs_counts host settings perSide c) as (Hlen & Hright & Hleft).
  fold burst in Hlen, Hright, Hleft.
  split; [|split; [exact Hlen | split; [exact Hright | split; [exact Hleft|]]]].
  - intros fuel Hfuel.
    exists (set_confetti (confetti m ++ burst) m).
    split; [|split].
    + rewrite (addConfetti_runs host fuel config m c Hfuel). reflexivity.
    + reflexivity.
    + unfold growth. cbn [option_map set_confetti confetti].
      rewrite skipn_app, skipn_all, Nat.sub_diag. cbn [skipn app].
      rewrite Hlen, Hright, Hleft. reflexivity.
  - split.
    + intros n Hn. unfold perSide. rewrite Hn. apply pairs_spawned_integer.
    + intro Hn. unfold perSide. rewrite Hn. reflexivity.
Qed.

Lemma addConfetti_spawns_ceil_half_count_per_side_witness :
  exists m',
    fst (addConfetti demo_host 5 (count_config 10)
           (fst (ConfettiManager_new demo_host no_calls)) no_calls) = Some m'
    /\ growth (fst (ConfettiManager_new demo_host no_calls)) (Some m')
       = Some (10, 5, 5)%nat.
Proof.
  destruct (addConfetti_spawns_ceil_half_count_per_side demo_host
              (count_config 10)
              (fst (ConfettiManager_new demo_host no_calls)) no_calls)
    as (Hruns & _).
  destruct (Hruns 5%nat) as (m' & Hsome & _ & Hgrowth).
  - vm_compute. apply le_n.
  - exists m'. split; [exact Hsome | exact Hgrowth].
Defined.

(** ** Starting over *)

(** C6. Whatever particles the manager holds, [resetAndStart(config)] returns
    and leaves exactly the collection that [addConfetti(config)] leaves on a
    manager with no particles, under the same oracle state: the burst of
    [2 * ceil(count / 2)] new particles and none of the earlier ones. *)
Theorem resetAndStart_leaves_only_the_new_burst :
  forall (host : Host) (config : Config) (m empty : ConfettiManager)
         (c : Calls) (fuel : nat),
    confetti empty = [] ->
    (pairs_spawned (confettiesNumber (spread defaultConfettiConfig config))
     <= fuel)%nat ->
    exists m' e',
      fst (resetAndStart host fuel config m c) = Some m'
      /\ fst (addConfetti host fuel config empty c) = Some e'
      /\ confetti m' = confetti e'
      /\ confetti m' =
         fst (spawn_pairs host
                (pairs_spawned
                   (confettiesNumber (spread defaultConfettiConfig config)))
                (spread defaultConfettiConfig config) c)
      /\ snd (resetAndStart host fuel config m c)
         = snd (addConfetti host fuel config empty c).
Proof.
  intros host config m empty c fuel Hempty Hfuel.
  unfold resetAndStart.
  rewrite (addConfetti_runs host fuel config (set_confetti [] m) c Hfuel).
  rewrite (addConfetti_runs host fuel config empty c Hfuel).
  rewrite Hempty. cbn [set_confetti confetti app fst snd].
  do 2 eexists. repeat split.
Qed.

Lemma resetAndStart_leaves_only_the_new_burst_witness :
  let m := {| canvas := {| width := 3840; height := 2160 |};
              confetti := [resting_particle 500 0; resting_particle 600 0];
              lastUpdated := 0 |} in
  let empty := fst (ConfettiManager_new demo_host no_calls) in
  exists m' e',
    fst (resetAndStart demo_host 3 (count_config 6) m no_calls) = Some m'
    /\ fst (addConfetti demo_host 3 (count_config 6) empty no_calls) = Some e'
    /\ confetti m' = confetti e'.
Proof.
  intros m empty.
  destruct (resetAndStart_leaves_only_the_new_burst demo_host (count_config 6)
              m empty no_calls 3%nat)
    as (m' & e' & H1 & H2 & H3 & _).
  - reflexivity.
  - vm_compute. apply le_n.
  - exists m', e'. repeat split; assumption.
Defined.

(** ** Glyph particles *)






Lemma picked_truthy (emojis : list string) (r : Q) (e : string) :
  Forall (fun s => s <> EmptyString) emojis ->
  picked emojis r = Some e -> truthy (Some e) = true.
Proof.
  intros Hall He. unfold picked, js_index in He.
  destruct (Qfloor (r * array_length emojis) <? 0)%Z; [discriminate|].
  apply nth_error_In in He. rewrite Forall_forall in Hall.
  specialize (Hall e He). destruct e; [congruence | reflexivity].
Qed.





(** While the image of an icon particle loads, [svgIcon] is still [null] and
    the particle tumbles like a coloured one: updated once (16 ms) and then
    loaded, it carries a glyph with [rotationSpeed] 0.00984 and a [radius.y]
    below [radius.x], although the constructor gave it the [rotationSpeed]
    0.01 of a glyph particle. *)
Remark icon_particle_tumbles_while_its_image_loads :
  let icon := fst (Confetti_new demo_host {| x := 0; y := 770 |} DirRight 4
                     (confettiColors defaultConfettiConfig) []
                     (Some "star.svg"%string) no_calls) in
  let ready := run icon [Update 16 1016; Loaded] in
  rotationSpeed icon = 0.01
  /\ is_ready (svgIcon ready) = true
  /\ rotationSpeed ready == 0.00984
  /\ y (radius ready) < x (radius ready).
Proof.
  vm_compute.
  repeat split; solve [reflexivity | discriminate | intro H; discriminate H].
Qed.



(** * Further properties of the code *)

Lemma getRandomInRange_run (host : Host) (min max : Q) (precision : Z) (c : Calls) :
  getRandomInRange host min max precision c =
  (ranged (random_oracle host (randomCalls c)) min max precision,
   {| randomCalls := S (randomCalls c); nowCalls := nowCalls c |}).
Proof. reflexivity. Qed.

Lemma grid_positive (precision : Z) : 0 < Math_pow 10 precision.
Proof. unfold Math_pow. apply Qpower_0_lt. reflexivity. Qed.

Lemma floor_above_integer (q : Q) (j : Z) : inject_Z j <= q -> inject_Z j <= Math_floor q.
Proof.
  intro H. unfold Math_floor. rewrite <- Zle_Qle.
  rewrite <- (Qfloor_Z j). apply Qfloor_resp_le, H.
Qed.

Lemma ranged_within (r min max : Q) (precision : Z) :
  0 <= r -> r < 1 ->
  let v := ranged r min max precision in
  let grid := 1 / Math_pow 10 precision in
  Qmin min max - grid < v
  /\ v <= Qmax min max
  /\ (forall j : Z, Qmin min max == inject_Z j * grid -> Qmin min max <= v).
Proof.
  intros H0 H1 v grid. subst v grid. unfold ranged.
  pose proof (grid_positive precision) as Hm.
  set (m := Math_pow 10 precision) in *.
  set (rv := r * (max - min) + min).
  destruct (floor_bounds (rv * m)) as [Hle Hgt].
  set (f := Math_floor (rv * m)) in *.
  assert (Hv1 : f / m <= rv).
  { apply Qle_shift_div_r; [exact Hm | exact Hle]. }
  assert (Hv2 : rv - 1 / m < f / m).
  { apply Qlt_shift_div_l; [exact Hm|].
    setoid_replace ((rv - 1 / m) * m) with (rv * m - 1); [exact Hgt|].
    field. intro E. rewrite E in Hm. discriminate Hm. }
  assert (Hlo : Qmin min max <= rv).
  { unfold rv. destruct (Q.min_spec min max) as [[Hc ->]|[Hc ->]]; nra. }
  assert (Hhi : rv <= Qmax min max).
  { unfold rv. destruct (Q.max_spec min max) as [[Hc ->]|[Hc ->]]; nra. }
  split; [lra|]. split; [lra|].
  intros j Hj.
  assert (Hjm : inject_Z j <= rv * m).
  { setoid_replace (inject_Z j) with (Qmin min max * m).
    - apply Qmult_le_compat_r; [exact Hlo | lra].
    - rewrite Hj. field. intro E. rewrite E in Hm. discriminate Hm. }
  apply floor_above_integer in Hjm. fold f in Hjm.
  rewrite Hj.
  setoid_replace (inject_Z j * (1 / m)) with (inject_Z j / m)
    by (field; intro E; rewrite E in Hm; discriminate Hm).
  apply Qle_shift_div_l; [exact Hm|].
  setoid_replace (inject_Z j / m * m) with (inject_Z j)
    by (field; intro E; rewrite E in Hm; discriminate Hm).
  exact Hjm.
Qed.

Lemma Confetti_new_calls (host : Host) (initialPosition0 : XY)
    (direction0 : Direction) (radius0 : Q) (colors emojis : list string)
    (icon : option string) (c : Calls) :
  snd (Confetti_new host initialPosition0 direction0 radius0 colors emojis icon c)
  = {| randomCalls := randomCalls c + random_draws emojis icon;
       nowCalls := S (nowCalls c) |}
  /\ createdAt (fst (Confetti_new host initialPosition0 direction0 radius0
                       colors emojis icon c))
     = clock_oracle host (nowCalls c).
Proof.
  unfold random_draws. split.
  - construct; try discriminate; f_equal; lia.
  - construct; reflexivity.
Qed.

Lemma Confetti_new_randomized (host : Host) (initialPosition0 : XY)
    (direction0 : Direction) (radius0 : Q) (colors emojis : list string)
    (icon : option string) (c : Calls) :
  let p := fst (Confetti_new host initialPosition0 direction0 radius0
                  colors emojis icon c) in
  let ro := random_oracle host in
  exists kS kF kD kA kE kG kO : nat,
    speed p = {| x := ranged (ro kS) 0.9 1.7 3 * getScaleFactor host;
                 y := ranged (ro kS) 0.9 1.7 3 * getScaleFactor host |}
    /\ finalSpeedX p = ranged (ro kF) 0.2 0.6 3
    /\ dragCoefficient p = ranged (ro kD) 0.0005 0.0009 6
    /\ rotationAngle p =
       match direction0 with
       | DirLeft => ranged (ro kA) 0 0.2 3
       | DirRight => ranged (ro kA) (-0.2) 0 3
       end
    /\ emojiRotationAngle p = ranged (ro kE) 0 (2 * Math_PI host) 0
    /\ absCos p =
       Math_abs (Math_cos host
                   (match direction0 with
                    | DirLeft => ranged (ro kG) 82 15 0
                    | DirRight => ranged (ro kG) (-15) (-82) 0
                    end * DEG_TO_RAD host))
    /\ absSin p =
       Math_abs (Math_sin host
                   (match direction0 with
                    | DirLeft => ranged (ro kG) 82 15 0
                    | DirRight => ranged (ro kG) (-15) (-82) 0
                    end * DEG_TO_RAD host))
    /\ position p =
       {| x := x initialPosition0 +
               (match direction0 with
                | DirLeft => - ranged (ro kO) (-150) 0 0
                | DirRight => ranged (ro kO) (-150) 0 0
                end) * absCos p;
          y := y initialPosition0 - ranged (ro kO) (-150) 0 0 * absSin p |}
    /\ (glyph_requested emojis icon = false ->
        exists kR, rotationSpeed p
                   = ranged (ro kR) 0.03 0.07 3 * getScaleFactor host).
Proof.
  intros p ro. subst p ro. unfold ranged.
  construct; do 7 eexists;
    (split; [reflexivity|]); (split; [reflexivity|]); (split; [reflexivity|]);
    (split; [reflexivity|]); (split; [reflexivity|]); (split; [reflexivity|]);
    (split; [reflexivity|]); (split; [reflexivity|]);
    intro G; solve [discriminate G | eexists; reflexivity].
Qed.

Lemma ranged_in_interval (r min max : Q) (precision : Z) (j : Z) :
  0 <= r -> r < 1 -> min <= max ->
  min == inject_Z j * (1 / Math_pow 10 precision) ->
  min <= ranged r min max precision /\ ranged r min max precision <= max.
Proof.
  intros H0 H1 Hle Hj.
  destruct (ranged_within r min max precision H0 H1)
    as (_ & Hhi & Hlo).
  assert (E : Qmin min max == min) by (apply Q.min_l; exact Hle).
  assert (E' : Qmax min max == max) by (apply Q.max_r; exact Hle).
  split.
  - apply Qle_trans with (Qmin min max).
    + rewrite E. apply Qle_refl.
    + apply (Hlo j). rewrite E. exact Hj.
  - apply Qle_trans with (Qmax min max); [exact Hhi|].
    rewrite E'. apply Qle_refl.
Qed.

Lemma ranged_whole (r min max : Q) :
  ranged r min max 0 = inject_Z (Qfloor (r * (max - min) + min)).
Proof.
  unfold ranged, Math_floor, Math_pow. cbn [Qpower].
  rewrite (Qfloor_comp _ (r * (max - min) + min)) by apply Qmult_1_r.
  unfold Qdiv, Qmult, Qinv, inject_Z. cbn [Qnum Qden].
  rewrite Z.mul_1_r. reflexivity.
Qed.

(** X2. With [Math.random()] in [0, 1) the constructor draws [finalSpeedX]
    between 0.2 and 0.6, [dragCoefficient] between 0.0005 and 0.0009,
    [rotationAngle] between 0 and 0.2 for direction left and between -0.2 and
    0 for right, and one base between 0.9 and 1.7 that, times the scale
    factor, is both [speed.x] and [speed.y]; [rotationSpeed] is 0.01 when a
    glyph is requested and otherwise a base between 0.03 and 0.07 times the
    scale factor.  All bounds are inclusive. *)
Theorem constructor_randomizes_within_fixed_ranges :
  forall (host : Host) (c : Calls) (initialPosition0 : XY)
         (direction0 : Direction) (radius0 : Q) (colors emojis : list string)
         (icon : option string),
    random_in_unit host ->
    let p := fst (Confetti_new host initialPosition0 direction0 radius0
                    colors emojis icon c) in
    x (speed p) = y (speed p)
    /\ (exists base, 0.9 <= base /\ base <= 1.7
                     /\ x (speed p) = base * getScaleFactor host)
    /\ 0.2 <= finalSpeedX p /\ finalSpeedX p <= 0.6
    /\ 0.0005 <= dragCoefficient p /\ dragCoefficient p <= 0.0009
    /\ match direction0 with
       | DirLeft => 0 <= rotationAngle p /\ rotationAngle p <= 0.2
       | DirRight => -0.2 <= rotationAngle p /\ rotationAngle p <= 0
       end
    /\ (if glyph_requested emojis icon
        then rotationSpeed p = 0.01
        else exists base, 0.03 <= base /\ base <= 0.07
                          /\ rotationSpeed p = base * getScaleFactor host).
Proof.
  intros host c initialPosition0 direction0 radius0 colors emojis icon Hr p.
  destruct (Confetti_new_randomized host initialPosition0 direction0 radius0
              colors emojis icon c)
    as (kS & kF & kD & kA & kE & kG & kO & HS & HF & HD & HA & _ & _ & _ & _ & HR).
  fold p in HS, HF, HD, HA, HR.
  assert (Hin : forall k min max precision j,
             min <= max -> min == inject_Z j * (1 / Math_pow 10 precision) ->
             min <= ranged (random_oracle host k) min max precision
             /\ ranged (random_oracle host k) min max precision <= max).
  { intros k min max precision j. apply ranged_in_interval; apply Hr. }
  split; [rewrite HS; reflexivity|].
  split.
  { exists (ranged (random_oracle host kS) 0.9 1.7 3).
    destruct (Hin kS 0.9 1.7 3%Z 900%Z) as [H1 H2]; [discriminate | reflexivity|].
    rewrite HS. repeat split; assumption. }
  destruct (Hin kF 0.2 0.6 3%Z 200%Z) as [H1 H2]; [discriminate | reflexivity|].
  destruct (Hin kD 0.0005 0.0009 6%Z 500%Z) as [H3 H4];
    [discriminate | reflexivity|].
  rewrite HF, HD. do 4 (split; [assumption|]).
  split.
  - rewrite HA. destruct direction0.
    + apply (Hin kA 0 0.2 3%Z 0%Z); [discriminate | reflexivity].
    + apply (Hin kA (-0.2) 0 3%Z (-200)%Z); [discriminate | reflexivity].
  - destruct (glyph_requested emojis icon) eqn:G.
    + apply (Confetti_new_fixed_fields host initialPosition0 direction0 radius0
               colors emojis icon c). exact G.
    + destruct (HR eq_refl) as [kR HkR].
      exists (ranged (random_oracle host kR) 0.03 0.07 3).
      destruct (Hin kR 0.03 0.07 3%Z 30%Z) as [H5 H6];
        [discriminate | reflexivity|].
      repeat split; assumption.
Qed.

Lemma Qfloor_between (q : Q) (lo hi : Z) :
  inject_Z lo <= q -> q < inject_Z hi + 1 -> (lo <= Qfloor q <= hi)%Z.
Proof.
  intros Hlo Hhi. split.
  - rewrite <- (Qfloor_Z lo). apply Qfloor_resp_le, Hlo.
  - assert (H : inject_Z (Qfloor q) < inject_Z (hi + 1)).
    { rewrite inject_Z_plus. eapply Qle_lt_trans; [apply Qfloor_le | exact Hhi]. }
    rewrite <- Zlt_Qlt in H. lia.
Qed.

(** X3. The launch angle is a whole number of degrees: between 15 and 82 for
    direction left, between -82 and -15 for right; [absCos] and [absSin] are
    the absolute cosine and sine of that angle in radians, hence not
    negative. *)
Theorem constructor_launches_at_whole_degrees :
  forall (host : Host) (c : Calls) (initialPosition0 : XY)
         (direction0 : Direction) (radius0 : Q) (colors emojis : list string)
         (icon : option string),
    random_in_unit host ->
    let p := fst (Confetti_new host initialPosition0 direction0 radius0
                    colors emojis icon c) in
    exists degrees : Z,
      (15 <= degrees <= 82)%Z
      /\ let angle :=
           inject_Z (match direction0 with
                     | DirLeft => degrees
                     | DirRight => - degrees
                     end) * DEG_TO_RAD host in
         absCos p = Math_abs (Math_cos host angle)
         /\ absSin p = Math_abs (Math_sin host angle)
         /\ 0 <= absCos p /\ 0 <= absSin p.
Proof.
  intros host c initialPosition0 direction0 radius0 colors emojis icon Hr p.
  destruct (Confetti_new_randomized host initialPosition0 direction0 radius0
              colors emojis icon c)
    as (kS & kF & kD & kA & kE & kG & kO & _ & _ & _ & _ & _ & HC & HS & _).
  fold p in HC, HS. rewrite !ranged_whole in HC, HS.
  destruct (Hr kG) as [H0 H1]. set (r := random_oracle host kG) in *.
  destruct direction0.
  - exists (Qfloor (r * (15 - 82) + 82)). split.
    + apply Qfloor_between; change (inject_Z 15) with 15;
        change (inject_Z 82) with 82; lra.
    + cbv zeta. rewrite HC, HS. repeat split; apply Qabs_nonneg.
  - exists (- Qfloor (r * (-82 - -15) + -15))%Z. split.
    + assert (H : (-82 <= Qfloor (r * (-82 - -15) + -15) <= -15)%Z).
      { apply Qfloor_between; change (inject_Z (-82)) with (-82);
          change (inject_Z (-15)) with (-15); lra. }
      lia.
    + cbv zeta. rewrite Z.opp_involutive, HC, HS.
      repeat split; apply Qabs_nonneg.
Qed.

Lemma spawn_pairs_calls (host : Host) (settings : FullConfig) :
  forall (k : nat) (c : Calls),
    snd (spawn_pairs host k settings c) =
    {| randomCalls :=
         randomCalls c
         + 2 * k * random_draws (emojies settings) (svgIconSrc settings);
       nowCalls := nowCalls c + 2 * k |}.
Proof.
  induction k as [|k IH]; intro c.
  - cbn [spawn_pairs ret snd]. destruct c as [rc nc]. cbn. f_equal; lia.
  - cbn [spawn_pairs]. unfold bind, ret.
    pose proof (Confetti_new_calls host
                  {| x := 0; y := 5 * innerHeight (window host) / 7 |} DirRight
                  (confettiRadius settings) (confettiColors settings)
                  (emojies settings) (svgIconSrc settings) c) as [Ha _].
    destruct (Confetti_new host {| x := 0; y := 5 * innerHeight (window host) / 7 |}
                DirRight (confettiRadius settings) (confettiColors settings)
                (emojies settings) (svgIconSrc settings) c) as [a c1].
    pose proof (Confetti_new_calls host
                  {| x := innerWidth (window host);
                     y := 5 * innerHeight (window host) / 7 |} DirLeft
                  (confettiRadius settings) (confettiColors settings)
                  (emojies settings) (svgIconSrc settings) c1) as [Hb _].
    destruct (Confetti_new host
                {| x := innerWidth (window host);
                   y := 5 * innerHeight (window host) / 7 |}
                DirLeft (confettiRadius settings) (confettiColors settings)
                (emojies settings) (svgIconSrc settings) c1) as [b c2].
    specialize (IH c2).
    destruct (spawn_pairs host k settings c2) as [rest c3].
    cbn [snd] in *. subst c1 c2 c3. cbn [randomCalls nowCalls]. f_equal; lia.
Qed.

(** Whatever holds of every particle the constructor builds from the two
    launch points of [addConfetti] holds of every particle of a burst. *)
Lemma spawn_pairs_Forall (host : Host) (settings : FullConfig)
    (P : Confetti -> Prop) :
  (forall c : Calls,
      P (fst (Confetti_new host
                {| x := 0; y := 5 * innerHeight (window host) / 7 |} DirRight
                (confettiRadius settings) (confettiColors settings)
                (emojies settings) (svgIconSrc settings) c))
      /\ P (fst (Confetti_new host
                   {| x := innerWidth (window host);
                      y := 5 * innerHeight (window host) / 7 |} DirLeft
                   (confettiRadius settings) (confettiColors settings)
                   (emojies settings) (svgIconSrc settings) c))) ->
  forall (k : nat) (c : Calls), Forall P (fst (spawn_pairs host k settings c)).
Proof.
  intros HP. induction k as [|k IH]; intro c; [constructor|].
  cbn [spawn_pairs]. unfold bind, ret.
  pose proof (proj1 (HP c)) as Ha.
  destruct (Confetti_new host {| x := 0; y := 5 * innerHeight (window host) / 7 |}
              DirRight (confettiRadius settings) (confettiColors settings)
              (emojies settings) (svgIconSrc settings) c) as [a c1].
  pose proof (proj2 (HP c1)) as Hb.
  destruct (Confetti_new host
              {| x := innerWidth (window host);
                 y := 5 * innerHeight (window host) / 7 |}
              DirLeft (confettiRadius settings) (confettiColors settings)
              (emojies settings) (svgIconSrc settings) c1) as [b c2].
  specialize (IH c2).
  destruct (spawn_pairs host k settings c2) as [rest c3].
  cbn [fst] in *. constructor; [exact Ha|]. constructor; [exact Hb | exact IH].
Qed.

Lemma pairs_spawned_nonpositive (n : Q) : n <= 0 -> pairs_spawned n = 0%nat.
Proof.
  intro H. unfold pairs_spawned.
  assert (Hc : (Qceiling (n / 2) <= 0)%Z).
  { change 0%Z with (Qceiling 0). apply Qceiling_resp_le.
    apply Qle_shift_div_r; lra. }
  lia.
Qed.

(** X5. A burst of [perSide] pairs reads the clock [2 * perSide] times and
    draws [2 * perSide * n] random numbers, where [n] depends only on the
    settings: 9 for plain coloured particles, never fewer than 7 nor more
    than 9. *)
Theorem addConfetti_consumes_a_fixed_number_of_oracle_calls :
  forall (host : Host) (config : Config) (m : ConfettiManager) (c : Calls)
         (fuel : nat),
    let settings := spread defaultConfettiConfig config in
    let perSide := pairs_spawned (confettiesNumber settings) in
    (perSide <= fuel)%nat ->
    snd (addConfetti host fuel config m c) =
    {| randomCalls :=
         randomCalls c
         + 2 * perSide * random_draws (emojies settings) (svgIconSrc settings);
       nowCalls := nowCalls c + 2 * perSide |}
    /\ (7 <= random_draws (emojies settings) (svgIconSrc settings) <= 9)%nat
    /\ (emojies settings = [] -> truthy (svgIconSrc settings) = false ->
        random_draws (emojies settings) (svgIconSrc settings) = 9%nat).
Proof.
  intros host config m c fuel settings perSide Hfuel.
  rewrite (addConfetti_runs host fuel config m c Hfuel). cbn [snd].
  fold settings perSide. split; [apply spawn_pairs_calls|].
  unfold random_draws, glyph_requested.
  destruct (emojies settings) as [|e es]; cbn [List.length Nat.eqb negb orb].
  - destruct (truthy (svgIconSrc settings)); split; try lia;
      intros _ H; solve [discriminate H | reflexivity].
  - split; [lia | discriminate].
Qed.

(** X6. With a count of zero or less [addConfetti] returns at once, whatever
    the fuel: the manager is unchanged and no oracle is consulted. *)
Theorem addConfetti_with_nonpositive_count_does_nothing :
  forall (host : Host) (config : Config) (m : ConfettiManager) (c : Calls)
         (fuel : nat),
    confettiesNumber (spread defaultConfettiConfig config) <= 0 ->
    addConfetti host fuel config m c = (Some m, c).
Proof.
  intros host config m c fuel Hn.
  pose proof (pairs_spawned_nonpositive _ Hn) as Hk.
  rewrite (addConfetti_runs host fuel config m c); rewrite Hk; [|lia].
  cbn [spawn_pairs ret fst snd]. rewrite app_nil_r.
  destruct m; reflexivity.
Qed.

Lemma Confetti_new_start (host : Host) (initialPosition0 : XY)
    (direction0 : Direction) (radius0 : Q) (colors emojis : list string)
    (icon : option string) (c : Calls) :
  random_in_unit host ->
  let p := fst (Confetti_new host initialPosition0 direction0 radius0
                  colors emojis icon c) in
  (exists distance : Z,
      (1 <= distance <= 150)%Z
      /\ x (position p) ==
         x initialPosition0 +
         (match direction0 with
          | DirLeft => inject_Z distance
          | DirRight => - inject_Z distance
          end) * absCos p
      /\ y (position p) == y initialPosition0 + inject_Z distance * absSin p)
  /\ y initialPosition0 <= y (position p)
  /\ match direction0 with
     | DirLeft => x initialPosition0 <= x (position p)
     | DirRight => x (position p) <= x initialPosition0
     end.
Proof.
  intros Hr p.
  destruct (Confetti_new_randomized host initialPosition0 direction0 radius0
              colors emojis icon c)
    as (kS & kF & kD & kA & kE & kG & kO & _ & _ & _ & _ & _ & HC & HS & HP & _).
  fold p in HC, HS, HP. rewrite !ranged_whole in HP.
  destruct (Hr kO) as [H0 H1]. set (r := random_oracle host kO) in *.
  set (f := Qfloor (r * (0 - -150) + -150)) in *.
  assert (Hf : (-150 <= f <= -1)%Z).
  { apply Qfloor_between; change (inject_Z (-150)) with (-150);
      change (inject_Z (-1)) with (-1); lra. }
  assert (Hc : 0 <= absCos p) by (rewrite HC; apply Qabs_nonneg).
  assert (Hs : 0 <= absSin p) by (rewrite HS; apply Qabs_nonneg).
  assert (Hd1 : 1 <= inject_Z (- f)).
  { change 1 with (inject_Z 1). rewrite <- Zle_Qle. lia. }
  assert (Hd2 : inject_Z (- f) == - inject_Z f).
  { rewrite inject_Z_opp. reflexivity. }
  assert (Hx : x (position p) ==
               x initialPosition0 +
               (match direction0 with
                | DirLeft => inject_Z (- f)
                | DirRight => - inject_Z (- f)
                end) * absCos p).
  { rewrite HP. cbn [x]. destruct direction0; rewrite Hd2; ring. }
  assert (Hy : y (position p) == y initialPosition0 + inject_Z (- f) * absSin p).
  { rewrite HP. cbn [y]. rewrite Hd2. ring. }
  split.
  { exists (- f)%Z. split; [lia|]. split; assumption. }
  split.
  - rewrite Hy. nra.
  - destruct direction0; rewrite Hx; nra.
Qed.

(** X4. A new particle does not start at the launch point it is given but a
    whole distance of 1 to 150 behind it along its launch angle: at or below
    it ([y] not smaller), at or left of it for direction right and at or right
    of it for direction left; [position] and [initialPosition] both hold that
    start. *)
Theorem constructor_starts_behind_the_launch_point :
  forall (host : Host) (c : Calls) (initialPosition0 : XY)
         (direction0 : Direction) (radius0 : Q) (colors emojis : list string)
         (icon : option string),
    random_in_unit host ->
    let p := fst (Confetti_new host initialPosition0 direction0 radius0
                    colors emojis icon c) in
    position p = initialPosition p
    /\ (exists distance : Z,
          (1 <= distance <= 150)%Z
          /\ x (position p) ==
             x initialPosition0 +
             (match direction0 with
              | DirLeft => inject_Z distance
              | DirRight => - inject_Z distance
              end) * absCos p
          /\ y (position p) == y initialPosition0 + inject_Z distance * absSin p)
    /\ y initialPosition0 <= y (position p)
    /\ match direction0 with
       | DirLeft => x initialPosition0 <= x (position p)
       | DirRight => x (position p) <= x initialPosition0
       end.
Proof.
  intros host c initialPosition0 direction0 radius0 colors emojis icon Hr p.
  destruct (Confetti_new_fixed_fields host initialPosition0 direction0 radius0
              colors emojis icon c) as (_ & _ & _ & _ & _ & HI & _).
  split; [symmetry; exact HI|].
  apply (Confetti_new_start host initialPosition0 direction0 radius0 colors
           emojis icon c Hr).
Qed.

Lemma Confetti_new_emoji_none (host : Host) (initialPosition0 : XY)
    (direction0 : Direction) (radius0 : Q) (colors emojis : list string)
    (icon : option string) (c : Calls) :
  emojis = [] ->
  emoji (fst (Confetti_new host initialPosition0 direction0 radius0
                colors emojis icon c)) = None.
Proof.
  intros ->.
  apply (Confetti_new_emoji host initialPosition0 direction0 radius0 colors []
           icon c).
Qed.

Lemma Confetti_new_follows_settings (host : Host) (settings : FullConfig)
    (c : Calls) (direction0 : Direction) :
  random_in_unit host ->
  follows_settings host settings
    (fst (Confetti_new host
            {| x := match direction0 with
                    | DirRight => 0
                    | DirLeft => innerWidth (window host)
                    end;
               y := 5 * innerHeight (window host) / 7 |} direction0
            (confettiRadius settings) (confettiColors settings)
            (emojies settings) (svgIconSrc settings) c)).
Proof.
  intro Hr.
  set (ip := {| x := match direction0 with
                     | DirRight => 0
                     | DirLeft => innerWidth (window host)
                     end;
                y := 5 * innerHeight (window host) / 7 |}).
  destruct (Confetti_new_fixed_fields host ip direction0
              (confettiRadius settings) (confettiColors settings)
              (emojies settings) (svgIconSrc settings) c)
    as (H1 & H2 & H3 & H4 & H5 & H6 & _).
  destruct (Confetti_new_start host ip direction0
              (confettiRadius settings) (confettiColors settings)
              (emojies settings) (svgIconSrc settings) c Hr)
    as (_ & Hy & Hx).
  pose proof (Confetti_new_color host ip direction0
                (confettiRadius settings) (confettiColors settings)
                (emojies settings) (svgIconSrc settings) c) as Hcolor.
  pose proof (Confetti_new_svgImage host ip direction0
                (confettiRadius settings) (confettiColors settings)
                (emojies settings) (svgIconSrc settings) c) as Himage.
  cbv zeta in Hcolor, Himage.
  unfold follows_settings.
  split; [exact H1|]. split; [exact H2|]. split; [exact H3|].
  split; [exact H4|]. split; [symmetry; exact H6|]. split; [exact Hy|].
  split.
  - rewrite H5. destruct direction0; exact Hx.
  - intros G Hcolors. rewrite G in Hcolor.
    apply glyph_requested_false in G. destruct G as [Hnil Hicon].
    rewrite Hicon in Himage.
    destruct Hcolor as [k Hk].
    destruct (picked_in (confettiColors settings) (random_oracle host k) Hcolors)
      as (col & E & Hin); try apply Hr.
    split; [exists col; split; [congruence | exact Hin]|].
    split; [apply Confetti_new_emoji_none; exact Hnil | exact Himage].
Qed.

(** X7. [addConfetti] appends to the live collection and touches neither the
    canvas nor the frame clock.  Every particle it appends has the configured
    radius (4 by default) on both axes, starts its tumble going down, has no
    ready icon, starts at or below 5/7 of the window height and at or outside
    the side it is launched from ([x <= 0] for direction right,
    [x >= innerWidth] for left); without glyph and with a non-empty palette it
    has a colour of the palette and neither emoji nor icon. *)
Theorem addConfetti_builds_every_particle_from_the_settings :
  forall (host : Host) (config : Config) (m : ConfettiManager) (c : Calls)
         (fuel : nat),
    let settings := spread defaultConfettiConfig config in
    random_in_unit host ->
    (pairs_spawned (confettiesNumber settings) <= fuel)%nat ->
    exists (m' : ConfettiManager) (burst : list Confetti),
      fst (addConfetti host fuel config m c) = Some m'
      /\ confetti m' = confetti m ++ burst
      /\ canvas m' = canvas m
      /\ lastUpdated m' = lastUpdated m
      /\ Forall (follows_settings host settings) burst.
Proof.
  intros host config m c fuel settings Hr Hfuel.
  rewrite (addConfetti_runs host fuel config m c Hfuel). fold settings.
  do 2 eexists. split; [reflexivity|]. split; [reflexivity|].
  split; [reflexivity|]. split; [reflexivity|].
  apply spawn_pairs_Forall. intro c'. split.
  - apply (Confetti_new_follows_settings host settings c' DirRight Hr).
  - apply (Confetti_new_follows_settings host settings c' DirLeft Hr).
Qed.

Lemma draw_loaded (host : Host) (p : Confetti) (image : Image) :
  svgIcon p = Some image -> draw host p = image_ops host image p.
Proof. intro H. unfold draw. rewrite H. reflexivity. Qed.

Lemma draw_nothing (host : Host) (p : Confetti) :
  svgIcon p = None -> truthy (color p) = false -> truthy (emoji p) = false ->
  draw host p = [].
Proof. intros H1 H2 H3. unfold draw. rewrite H1, H2, H3. reflexivity. Qed.

Lemma draw_text (host : Host) (p : Confetti) (text : string) :
  svgIcon p = None -> truthy (color p) = false ->
  emoji p = Some text -> truthy (Some text) = true ->
  draw host p = text_ops host text p.
Proof.
  intros H1 H2 H3 H4. unfold draw. rewrite H1, H2, H3, H4. reflexivity.
Qed.

Lemma scoped_app (ops ops' : list CanvasOp) :
  forall depth depth' : nat,
    scoped depth ops = Some depth' ->
    scoped depth (ops ++ ops') = scoped depth' ops'.
Proof.
  induction ops as [|op ops IH]; intros depth depth' H.
  - cbn in H. injection H as ->. reflexivity.
  - destruct op; cbn [scoped app] in *; try (apply IH; exact H);
      destruct depth; try discriminate H; apply IH; exact H.
Qed.

Lemma scoped_draw (host : Host) (p : Confetti) (depth : nat) :
  scoped depth (draw host p) = Some depth.
Proof.
  unfold draw. destruct (svgIcon p); [reflexivity|].
  destruct (truthy (color p)); [reflexivity|].
  destruct (truthy (emoji p)); reflexivity.
Qed.

Lemma scoped_flat_map_draw (host : Host) (items : list Confetti) (depth : nat) :
  scoped depth (flat_map (draw host) items) = Some depth.
Proof.
  induction items as [|item items IH]; [reflexivity|].
  cbn [flat_map]. rewrite (scoped_app _ _ depth depth); [exact IH|].
  apply scoped_draw.
Qed.

Lemma filter_frame_ops (host : Host) (deltaTime currentTime canvasHeight : Q)
    (items : list Confetti) :
  snd (filter_frame host deltaTime currentTime canvasHeight items) =
  flat_map (draw host) (map (updatePosition deltaTime currentTime) items).
Proof.
  induction items as [|item rest IH]; [reflexivity|].
  cbn [filter_frame map flat_map].
  destruct (filter_frame host deltaTime currentTime canvasHeight rest)
    as [kept ops].
  cbn [snd] in *. rewrite IH. reflexivity.
Qed.

Lemma loop_ops (host : Host) (m : ConfettiManager) (c : Calls) :
  let currentTime := clock_oracle host (nowCalls c) in
  let deltaTime := currentTime - lastUpdated m in
  snd (fst (loop host m c)) =
  ClearRect 0 0 (width (canvas m)) (height (canvas m))
  :: flat_map (draw host) (map (updatePosition deltaTime currentTime) (confetti m))
  /\ snd (loop host m c)
     = {| randomCalls := randomCalls c; nowCalls := S (nowCalls c) |}.
Proof.
  intros currentTime deltaTime.
  unfold loop, bind, ret, Date_now.
  cbn [set_lastUpdated canvas confetti lastUpdated].
  fold currentTime. fold deltaTime.
  pose proof (filter_frame_ops host deltaTime currentTime (height (canvas m))
                (confetti m)) as Hops.
  destruct (filter_frame host deltaTime currentTime (height (canvas m))
              (confetti m)) as [kept ops].
  cbn [fst snd] in *. rewrite Hops. split; reflexivity.
Qed.

(** X8. A frame clears the whole canvas and then draws every live particle at
    its updated state, the ones it removes in this frame included; it sets
    [lastUpdated] to the time it read, reads the clock once and no random
    number, and never lengthens the collection.  Without particles it issues
    the single [clearRect]. *)
Theorem loop_draws_every_particle_before_culling :
  forall (host : Host) (m : ConfettiManager) (c : Calls),
    let currentTime := clock_oracle host (nowCalls c) in
    let deltaTime := currentTime - lastUpdated m in
    let m' := fst (fst (loop host m c)) in
    let ops := snd (fst (loop host m c)) in
    ops = ClearRect 0 0 (width (canvas m)) (height (canvas m))
          :: flat_map (draw host)
               (map (updatePosition deltaTime currentTime) (confetti m))
    /\ lastUpdated m' = currentTime
    /\ snd (loop host m c)
       = {| randomCalls := randomCalls c; nowCalls := S (nowCalls c) |}
    /\ (List.length (confetti m') <= List.length (confetti m))%nat
    /\ (confetti m = [] ->
        confetti m' = []
        /\ ops = [ClearRect 0 0 (width (canvas m)) (height (canvas m))]).
Proof.
  intros host m c currentTime deltaTime m' ops.
  destruct (loop_ops host m c) as [Hops Hcalls].
  destruct (loop_result host m c) as (_ & Hlast & Hlive).
  fold currentTime deltaTime in Hops, Hlast, Hlive. fold m' in Hlast, Hlive.
  fold ops in Hops.
  split; [exact Hops|]. split; [exact Hlast|]. split; [exact Hcalls|]. split.
  - rewrite Hlive.
    eapply Nat.le_trans; [apply filter_length_le|]. rewrite length_map. lia.
  - intro Hempty. rewrite Hlive, Hops, Hempty. split; reflexivity.
Qed.

(** X9. In the operations of a frame, and of each [draw], every [translate]
    and [rotate] happens between a [save] and its [restore], no [restore]
    lacks its [save], and the state stack ends as deep as it started: the
    transform of one particle never reaches the next. *)
Theorem frame_keeps_transforms_inside_save_and_restore :
  forall (host : Host) (m : ConfettiManager) (c : Calls) (depth : nat),
    scoped depth (snd (fst (loop host m c))) = Some depth
    /\ forall p : Confetti, scoped depth (draw host p) = Some depth.
Proof.
  intros host m c depth. split; [|intro p; apply scoped_draw].
  destruct (loop_ops host m c) as [Hops _]. rewrite Hops.
  cbn [scoped]. apply scoped_flat_map_draw.
Qed.

(** X10. A particle created with an icon draws no image and no ellipse while
    the icon loads, however often it is updated: nothing at all without
    emojis, its emoji text otherwise.  Once [onload] has run it draws the
    image, centred on its position scaled by the device pixel ratio and sized
    by its current radius, and nothing else. *)
Theorem icon_particle_draws_its_image_only_once_loaded :
  forall (host : Host) (c : Calls) (initialPosition0 : XY)
         (direction0 : Direction) (radius0 : Q) (colors emojis : list string)
         (source : string) (calls : list (Q * Q)),
    random_in_unit host ->
    truthy (Some source) = true ->
    Forall (fun s => s <> EmptyString) emojis ->
    let p := updates (fst (Confetti_new host initialPosition0 direction0
                             radius0 colors emojis (Some source) c)) calls in
    match emojis with
    | [] => draw host p = []
    | _ :: _ => exists text, In text emojis /\ draw host p = text_ops host text p
    end
    /\ draw host (onload p) = image_ops host {| src := source |} p.
Proof.
  intros host c initialPosition0 direction0 radius0 colors emojis source calls
    Hr Hs Hall p.
  set (p0 := fst (Confetti_new host initialPosition0 direction0 radius0
                    colors emojis (Some source) c)) in *.
  destruct (Confetti_new_fixed_fields host initialPosition0 direction0 radius0
              colors emojis (Some source) c) as (_ & _ & _ & Hicon & _).
  pose proof (Confetti_new_color host initialPosition0 direction0 radius0
                colors emojis (Some source) c) as Hcolor.
  pose proof (Confetti_new_emoji host initialPosition0 direction0 radius0
                colors emojis (Some source) c) as Hemoji.
  pose proof (Confetti_new_svgImage host initialPosition0 direction0 radius0
                colors emojis (Some source) c) as Himage.
  cbv zeta in Hcolor, Hemoji, Himage. fold p0 in Hicon, Hcolor, Hemoji, Himage.
  assert (G : glyph_requested emojis (Some source) = true).
  { apply glyph_requested_true. right. exact Hs. }
  rewrite G in Hcolor. rewrite Hs in Himage.
  destruct Himage as (s & Es & Himage). injection Es as <-.
  destruct (updates_constants p0 calls) as [Hsame Hicon'].
  fold p in Hsame, Hicon'.
  assert (Hi : svgIcon p = None) by congruence.
  assert (Hc : truthy (color p) = false).
  { rewrite (same_color _ _ Hsame), Hcolor. reflexivity. }
  split.
  - destruct emojis as [|e0 emojis].
    + apply draw_nothing; [exact Hi | exact Hc|].
      rewrite (same_emoji _ _ Hsame), Hemoji. reflexivity.
    + destruct Hemoji as [k Hk].
      destruct (picked_in (e0 :: emojis) (random_oracle host k))
        as (e & He & Hin); try apply Hr; [discriminate|].
      exists e. split; [exact Hin|].
      apply draw_text; [exact Hi | exact Hc | |].
      * rewrite (same_emoji _ _ Hsame), Hk. exact He.
      * eapply picked_truthy; eassumption.
  - assert (Hload : onload p = set_svgIcon (Some {| src := source |}) p).
    { unfold onload. rewrite (same_svgImage _ _ Hsame), Himage. reflexivity. }
    rewrite Hload.
    rewrite (draw_loaded host _ {| src := source |}) by reflexivity.
    reflexivity.
Qed.

(** X11. With an empty [colors] and no glyph requested the constructor does
    not fail: the particle has neither colour nor emoji, and [draw] issues no
    operation for it at any point of its life. *)
Theorem particle_without_color_or_glyph_is_never_drawn :
  forall (host : Host) (c : Calls) (initialPosition0 : XY)
         (direction0 : Direction) (radius0 : Q) (emojis : list string)
         (icon : option string) (events : list Event),
    glyph_requested emojis icon = false ->
    let p0 := fst (Confetti_new host initialPosition0 direction0 radius0
                     [] emojis icon c) in
    color p0 = None /\ emoji p0 = None /\ draw host (run p0 events) = [].
Proof.
  intros host c initialPosition0 direction0 radius0 emojis icon events G p0.
  destruct (Confetti_new_fixed_fields host initialPosition0 direction0 radius0
              [] emojis icon c) as (_ & _ & _ & Hicon & _).
  pose proof (Confetti_new_color host initialPosition0 direction0 radius0
                [] emojis icon c) as Hcolor.
  pose proof (Confetti_new_svgImage host initialPosition0 direction0 radius0
                [] emojis icon c) as Himage.
  cbv zeta in Hcolor, Himage. fold p0 in Hicon, Hcolor, Himage.
  rewrite G in Hcolor. destruct Hcolor as [k Hk].
  assert (Hcol : color p0 = None).
  { rewrite Hk. unfold picked, js_index.
    destruct (Qfloor (random_oracle host k * array_length []) <? 0)%Z;
      [reflexivity|].
    destruct (Z.to_nat (Qfloor (random_oracle host k * array_length [])));
      reflexivity. }
  apply glyph_requested_false in G. destruct G as [Hnil Hfalsy].
  rewrite Hfalsy in Himage.
  assert (Hemo : emoji p0 = None).
  { apply Confetti_new_emoji_none. exact Hnil. }
  split; [exact Hcol|]. split; [exact Hemo|].
  assert (Hinv : forall q : Confetti,
             color q = None /\ emoji q = None /\ svgIcon q = None
             /\ svgImage q = None ->
             forall evs, draw host (run q evs) = []).
  { intros q Hq evs. revert q Hq.
    induction evs as [|e evs IH]; intros q (H1 & H2 & H3 & H4).
    - change (run q []) with q.
      apply draw_nothing; [exact H3 | rewrite H1 | rewrite H2]; reflexivity.
    - change (run q (e :: evs)) with (run (step q e) evs). apply IH.
      destruct e as [dt now|]; cbn [step].
      + destruct (updatePosition_constants dt now q) as [Hc Hi].
        rewrite (same_color _ _ Hc), (same_emoji _ _ Hc), Hi,
          (same_svgImage _ _ Hc). auto.
      + unfold onload. rewrite H4. auto. }
  apply Hinv. auto.
Qed.

(** X12. With [Math.random()] in [0, 1), [getRandomItem] returns an entry of
    a non-empty array and [undefined] for an empty one; either way it draws
    one random number. *)
Theorem getRandomItem_picks_a_member_or_nothing :
  forall (host : Host) (A : Type) (array : list A) (c : Calls),
    random_in_unit host ->
    match array with
    | [] => fst (getRandomItem host array c) = None
    | _ :: _ => exists a, fst (getRandomItem host array c) = Some a /\ In a array
    end
    /\ snd (getRandomItem host array c)
       = {| randomCalls := S (randomCalls c); nowCalls := nowCalls c |}.
Proof.
  intros host A array c Hr. split; [|reflexivity].
  change (fst (getRandomItem host array c))
    with (picked array (random_oracle host (randomCalls c))).
  destruct array as [|a0 array].
  - unfold picked, js_index.
    destruct (Qfloor (random_oracle host (randomCalls c) * array_length []) <? 0)%Z;
      [reflexivity|].
    destruct (Z.to_nat (Qfloor (random_oracle host (randomCalls c)
                                * array_length [])));
      reflexivity.
  - apply picked_in; try apply Hr. discriminate.
Qed.

Lemma updates_speed_x_at_floor (p : Confetti) (calls : list (Q * Q)) :
  x (speed p) <= finalSpeedX p ->
  x (speed (updates p calls)) = x (speed p)
  /\ finalSpeedX (updates p calls) = finalSpeedX p.
Proof.
  revert p. induction calls as [|[dt now] calls IH]; intros p H.
  - split; reflexivity.
  - rewrite updates_cons. cbn [fst snd].
    assert (Hx : x (speed (updatePosition dt now p)) = x (speed p)).
    { rewrite updatePosition_speed_x. apply dragged_speed_x_at_floor, H. }
    assert (Hf : finalSpeedX (updatePosition dt now p) = finalSpeedX p).
    { apply (updatePosition_constants dt now p). }
    destruct (IH (updatePosition dt now p)) as [H1 H2].
    { rewrite Hx, Hf. exact H. }
    split; congruence.
Qed.

(** X13. Above the floor an update lowers [speed.x] by exactly
    [dragCoefficient * deltaTime]: it may end below [finalSpeedX], by less
    than that step, and does so whenever the step exceeds the distance to the
    floor; [speed.x] then keeps that value through all later updates. *)
Theorem drag_step_overshoot_is_bounded_and_permanent :
  forall (p : Confetti) (deltaTime currentTime : Q),
    finalSpeedX p < x (speed p) ->
    0 <= dragCoefficient p ->
    0 <= deltaTime ->
    let p' := updatePosition deltaTime currentTime p in
    x (speed p') = x (speed p) - dragCoefficient p * deltaTime
    /\ x (speed p') <= x (speed p)
    /\ finalSpeedX p - dragCoefficient p * deltaTime < x (speed p')
    /\ (x (speed p) - finalSpeedX p < dragCoefficient p * deltaTime ->
        x (speed p') < finalSpeedX p
        /\ forall later : list (Q * Q),
             x (speed (updates p' later)) = x (speed p')).
Proof.
  intros p deltaTime currentTime Habove Hdrag Hdt p'.
  assert (Hx : x (speed p') = x (speed p) - dragCoefficient p * deltaTime).
  { unfold p'. rewrite updatePosition_speed_x. unfold dragged_speed_x.
    apply Qltb_lt in Habove. rewrite Habove. reflexivity. }
  assert (Hstep : 0 <= dragCoefficient p * deltaTime)
    by (apply Qmult_le_0_compat; assumption).
  split; [exact Hx|]. rewrite Hx. split; [lra|]. split; [lra|].
  intro Hlong. split; [lra|]. intro later.
  rewrite <- Hx. apply updates_speed_x_at_floor.
  rewrite Hx. unfold p'.
  rewrite (same_finalSpeedX _ _
             (proj1 (updatePosition_constants deltaTime currentTime p))).
  lra.
Qed.

Lemma updatePosition_rotationSpeed (deltaTime currentTime : Q) (p : Confetti) :
  tumbles p = true ->
  rotationSpeed (updatePosition deltaTime currentTime p)
  = decayed_rotationSpeed deltaTime p
  /\ tumbles (updatePosition deltaTime currentTime p) = true.
Proof.
  intro Ht. split.
  - unfold tumbles in Ht. unfold decayed_rotationSpeed.
    unfold updatePosition; fields.
    destruct (Qltb (finalSpeedX p) (x (speed p))); fields; rewrite Ht; fields;
      destruct (radiusYDirection p); fields;
      match goal with |- context [Qleb ?a ?b] => destruct (Qleb a b) end;
      reflexivity.
  - destruct (updatePosition_constants deltaTime currentTime p) as [Hc Hi].
    unfold tumbles in *. rewrite Hi, (same_emoji _ _ Hc). exact Ht.
Qed.

Lemma max_zero_decay (u b : Q) :
  0 <= b -> Qmax (Qmax u 0 - b) 0 == Qmax (u - b) 0.
Proof.
  intro Hb.
  destruct (Q.max_spec u 0) as [[H1 E1]|[H1 E1]]; rewrite E1;
    destruct (Q.max_spec (0 - b) 0) as [[H2 E2]|[H2 E2]];
    destruct (Q.max_spec (u - b) 0) as [[H3 E3]|[H3 E3]];
    rewrite ?E2, ?E3; try lra; try reflexivity.
Qed.

Lemma updates_rotationSpeed (p : Confetti) (calls : list (Q * Q)) :
  tumbles p = true ->
  0 <= rotationSpeed p ->
  Forall (fun call => 0 <= fst call) calls ->
  rotationSpeed (updates p calls)
  == Qmax (rotationSpeed p - 1e-5 * total_deltaTime calls) 0
  /\ 0 <= total_deltaTime calls.
Proof.
  intros Ht Hrs Hcalls. revert p Ht Hrs.
  induction Hcalls as [|[dt now] calls Hdt Hrest IH]; intros p Ht Hrs.
  - cbn [updates fold_left total_deltaTime fold_right]. split; [|lra].
    setoid_replace (rotationSpeed p - 1e-5 * 0) with (rotationSpeed p) by ring.
    rewrite Q.max_l; [reflexivity | exact Hrs].
  - rewrite updates_cons. cbn [fst snd total_deltaTime fold_right] in *.
    fold (total_deltaTime calls).
    destruct (updatePosition_rotationSpeed dt now p Ht) as [Hrot Ht'].
    destruct (IH (updatePosition dt now p) Ht') as [IH1 IH2].
    { rewrite Hrot. apply Math_max_zero_nonneg. }
    split; [|lra].
    rewrite IH1, Hrot. unfold decayed_rotationSpeed, Math_max.
    assert (Hrate : 0 <= 1e-5) by discriminate.
    set (rate := 1e-5) in *.
    etransitivity; [apply max_zero_decay; nra|].
    apply Q.max_compat; [ring | reflexivity].
Qed.

(** X14. For a particle without glyph and with a rotation speed that is not
    negative, updates with non-negative [deltaTime] only ever lower
    [rotationSpeed] and never take it below zero: after any sequence of them
    it lies between 0 and where it started, and one more update leaves it
    between 0 and where it was. *)
Theorem rotationSpeed_only_decays_and_never_goes_negative :
  forall (p : Confetti) (calls : list (Q * Q)) (deltaTime currentTime : Q),
    tumbles p = true ->
    0 <= rotationSpeed p ->
    Forall (fun call => 0 <= fst call) calls ->
    0 <= deltaTime ->
    let q := updates p calls in
    let q' := updatePosition deltaTime currentTime q in
    0 <= rotationSpeed q
    /\ rotationSpeed q <= rotationSpeed p
    /\ 0 <= rotationSpeed q'
    /\ rotationSpeed q' <= rotationSpeed q.
Proof.
  intros p calls deltaTime currentTime Ht Hrs Hcalls Hdt q q'.
  assert (Hrate : 0 <= 1e-5) by discriminate.
  destruct (updates_rotationSpeed p calls Ht Hrs Hcalls) as [Hrot Htotal].
  fold q in Hrot.
  assert (Htq : tumbles q = true).
  { destruct (updates_constants p calls) as [Hc Hi]. fold q in Hc, Hi.
    unfold tumbles in *. rewrite Hi, (same_emoji _ _ Hc). exact Ht. }
  assert (Hq0 : 0 <= rotationSpeed q).
  { rewrite Hrot. apply Q.le_max_r. }
  assert (Hq1 : rotationSpeed q <= rotationSpeed p).
  { rewrite Hrot. apply Q.max_lub; [|exact Hrs].
    set (rate := 1e-5) in *. nra. }
  destruct (updatePosition_rotationSpeed deltaTime currentTime q Htq) as [E _].
  fold q' in E. rewrite E. unfold decayed_rotationSpeed, Math_max.
  split; [exact Hq0|]. split; [exact Hq1|]. split; [apply Q.le_max_r|].
  apply Q.max_lub; [|exact Hq0].
  set (rate := 1e-5) in *. nra.
Qed.

(** X15. With [lift = speed.y * absSin], a particle is never higher than
    [400 * lift^2] above its initial position; it is exactly there at age
    [800 * lift], and for [lift >= 0] it is at or above its initial height
    exactly up to age [1600 * lift]. *)
Theorem particle_rises_to_a_fixed_apex_then_falls :
  forall (p : Confetti) (deltaTime currentTime : Q),
    let lift := y (speed p) * absSin p in
    let elapsed := currentTime - createdAt p in
    let p' := updatePosition deltaTime currentTime p in
    y (initialPosition p) - 400 * lift ^ 2 <= y (position p')
    /\ (elapsed == 800 * lift ->
        y (position p') == y (initialPosition p) - 400 * lift ^ 2)
    /\ (0 <= lift -> 0 <= elapsed ->
        (y (position p') <= y (initialPosition p) <-> elapsed <= 1600 * lift)).
Proof.
  intros p deltaTime currentTime lift elapsed p'.
  assert (Hy : y (position p') ==
               y (initialPosition p) - lift * elapsed
               + 0.000625 * (elapsed * elapsed)).
  { unfold p'. rewrite updatePosition_position_y. fold elapsed. fold lift.
    unfold Math_pow. simpl Qpower. field. }
  assert (Hsq : lift ^ 2 == lift * lift) by (simpl; ring).
  split; [|split].
  - rewrite Hy, Hsq.
    assert (H : 0 <= (elapsed - 800 * lift) * (elapsed - 800 * lift)).
    { set (a := elapsed - 800 * lift). nra. }
    nra.
  - intro E. rewrite Hy, Hsq, E. field.
  - intros Hl He. rewrite Hy. split; intro H.
    + destruct (Qlt_le_dec (1600 * lift) elapsed) as [Hgt|Hle]; [|exact Hle].
      exfalso. nra.
    + nra.
Qed.

Lemma old_particle_is_invisible (canvasHeight : Q) (p : Confetti)
    (deltaTime currentTime : Q) :
  cull_age canvasHeight p <= currentTime - createdAt p ->
  isVisible canvasHeight (updatePosition deltaTime currentTime p) = false.
Proof.
  intro Hage. unfold isVisible. apply Qltb_ge.
  rewrite updatePosition_position_y.
  set (elapsed := currentTime - createdAt p) in *.
  set (lift := y (speed p) * absSin p) in *.
  unfold cull_age, Math_max in Hage. fold lift in Hage.
  pose proof (Q.le_max_l 0 (Qmax (1600 * (lift + 1))
                                 (canvasHeight + 100 - y (initialPosition p)))) as H0.
  pose proof (Q.le_max_r 0 (Qmax (1600 * (lift + 1))
                                 (canvasHeight + 100 - y (initialPosition p)))) as H1.
  pose proof (Q.le_max_l (1600 * (lift + 1))
                (canvasHeight + 100 - y (initialPosition p))) as H2.
  pose proof (Q.le_max_r (1600 * (lift + 1))
                (canvasHeight + 100 - y (initialPosition p))) as H3.
  assert (He : 0 <= elapsed) by lra.
  assert (Hf : 1 <= 0.000625 * elapsed - lift) by lra.
  assert (Hp : elapsed <= elapsed * (0.000625 * elapsed - lift)) by nra.
  setoid_replace (y (initialPosition p) - lift * elapsed
                  + 0.00125 * Math_pow elapsed 2 / 2)
    with (y (initialPosition p) + elapsed * (0.000625 * elapsed - lift)).
  - lra.
  - unfold Math_pow. simpl Qpower. field.
Qed.

(** X16. Every particle leaves the visible range for good: from the age
    [cull_age canvasHeight p], computed from its launch data alone, every
    update leaves it with [isVisible(canvasHeight)] false. *)
Theorem every_particle_is_eventually_culled :
  forall (canvasHeight : Q) (p : Confetti) (deltaTime currentTime : Q),
    cull_age canvasHeight p <= currentTime - createdAt p ->
    isVisible canvasHeight (updatePosition deltaTime currentTime p) = false.
Proof. exact old_particle_is_invisible. Qed.

Lemma deadline_covers (canvasHeight : Q) (live : list Confetti) (p : Confetti) :
  In p live -> createdAt p + cull_age canvasHeight p <= deadline canvasHeight live.
Proof.
  induction live as [|q live IH]; [intros []|].
  intros [->|Hin]; cbn [deadline fold_right]; unfold Math_max.
  - apply Q.le_max_l.
  - eapply Qle_trans; [apply IH, Hin | apply Q.le_max_r].
Qed.

(** X17. A frame that runs at or after [deadline], the latest
    [createdAt + cull_age] of the live particles, leaves the live collection
    empty. *)
Theorem late_frame_empties_the_collection :
  forall (host : Host) (m : ConfettiManager) (c : Calls),
    deadline (height (canvas m)) (confetti m) <= clock_oracle host (nowCalls c) ->
    confetti (fst (fst (loop host m c))) = [].
Proof.
  intros host m c Hlate.
  destruct (loop_result host m c) as (_ & _ & Hlive). rewrite Hlive.
  set (now := clock_oracle host (nowCalls c)) in *.
  set (dt := now - lastUpdated m).
  assert (H : forall live : list Confetti,
             (forall p, In p live ->
                        createdAt p + cull_age (height (canvas m)) p <= now) ->
             filter (isVisible (height (canvas m)))
               (map (updatePosition dt now) live) = []).
  { induction live as [|p live IH]; intro Hall; [reflexivity|].
    cbn [map filter]. rewrite old_particle_is_invisible.
    - apply IH. intros q Hq. apply Hall. right. exact Hq.
    - specialize (Hall p (or_introl eq_refl)). lra. }
  apply H. intros p Hp.
  eapply Qle_trans; [apply deadline_covers, Hp | exact Hlate].
Qed.

Lemma filter_all {A : Type} (f : A -> bool) (l : list A) :
  Forall (fun a => f a = true) l -> filter f l = l.
Proof.
  induction 1 as [|a l Ha _ IH]; [reflexivity|].
  cbn [filter]. rewrite Ha, IH. reflexivity.
Qed.

Lemma debounced_replaces_its_timer {J Args : Type} (defer : Args -> J)
    (delay : Q) (others : list (Timer J)) (id n : nat) (own : list (Timer J))
    (now : Q) (args : Args) :
  Forall (fun t => (timer_id t < id)%nat) others ->
  Forall (fun t => timer_id t = id) own ->
  (id < n)%nat ->
  debounced defer delay now args
    (Some id, {| next_id := n; pending := others ++ own |})
  = (Some n,
     {| next_id := S n;
        pending := others ++ [{| timer_id := n; due := now + delay;
                                 job := defer args |}] |}).
Proof.
  intros Hothers Hown Hid. unfold debounced, clearTimeout, setTimeout.
  cbn [pending next_id]. rewrite filter_app.
  rewrite (filter_all _ others).
  - replace (filter _ own) with (@nil (Timer J)); [rewrite app_nil_r; reflexivity|].
    symmetry. induction Hown as [|t own Ht _ IH]; [reflexivity|].
    cbn [filter]. rewrite Ht, Nat.eqb_refl. exact IH.
  - eapply Forall_impl; [|exact Hothers]. cbn beta. intros t Ht.
    apply negb_true_iff, Nat.eqb_neq. lia.
Qed.

Lemma debounced_calls_leave_one_timer {J Args : Type} (defer : Args -> J)
    (delay : Q) (state : option nat * Timers J) :
  timers_fresh state ->
  forall (calls : list (Q * Args)) (now : Q) (args : Args),
    exists id : nat,
      (next_id (snd state) <= id)%nat
      /\ debounced_calls defer delay (calls ++ [(now, args)]) state
         = (Some id,
            {| next_id := S id;
               pending := others_of state
                          ++ [{| timer_id := id; due := now + delay;
                                 job := defer args |}] |}).
Proof.
  intros [Hfresh Htimeout] calls.
  induction calls as [|[now0 args0] calls IH] using rev_ind; intros now args.
  - exists (next_id (snd state)). split; [lia|].
    destruct state as [[i|] [n l]]; reflexivity.
  - destruct (IH now0 args0) as (id & Hid & Hstate).
    exists (S id). split; [lia|].
    unfold debounced_calls in *. rewrite fold_left_app. rewrite Hstate.
    cbn [fold_left fst snd].
    apply (debounced_replaces_its_timer defer delay (others_of state) id (S id)
             [{| timer_id := id; due := now0 + delay; job := defer args0 |}]).
    + unfold others_of. destruct state as [[i|] timers]; cbn [fst snd clearTimeout pending] in *.
      * apply Forall_forall. intros t Ht. apply filter_In in Ht.
        rewrite Forall_forall in Hfresh. specialize (Hfresh t (proj1 Ht)). lia.
      * eapply Forall_impl; [|exact Hfresh]. cbn beta. intros t Ht. lia.
    + repeat constructor.
    + lia.
Qed.

(** X18. After any number of calls of a debounced function with no timer
    firing in between, exactly one of its timers is pending: the one of the
    last call, due [delay] after it, carrying the arguments of that call; the
    timers of others are untouched.  When the host runs the due timers, the
    function runs once with the last arguments if [delay] has passed since the
    last call, and not at all before. *)
Theorem debounce_runs_only_the_last_call_after_the_delay :
  forall (J Args : Type) (defer : Args -> J) (delay : Q)
         (state : option nat * Timers J) (calls : list (Q * Args))
         (now : Q) (args : Args) (later : Q),
    timers_fresh state ->
    let state' := debounced_calls defer delay (calls ++ [(now, args)]) state in
    let others_due :=
      map job (filter (fun t => Qleb (due t) later) (others_of state)) in
    (exists id : nat,
        fst state' = Some id
        /\ pending (snd state')
           = others_of state
             ++ [{| timer_id := id; due := now + delay; job := defer args |}])
    /\ (now + delay <= later ->
        fst (run_due later (snd state')) = others_due ++ [defer args])
    /\ (later < now + delay ->
        fst (run_due later (snd state')) = others_due
        /\ exists id : nat,
            In {| timer_id := id; due := now + delay; job := defer args |}
               (pending (snd (run_due later (snd state'))))).
Proof.
  intros J Args defer delay state calls now args later Hfresh state' others_due.
  destruct (debounced_calls_leave_one_timer defer delay state Hfresh calls now args)
    as (id & _ & Hstate).
  fold state' in Hstate. rewrite Hstate. cbn [fst snd pending].
  split; [exists id; split; reflexivity|].
  unfold run_due. cbn [fst snd pending next_id].
  rewrite !filter_app, map_app. cbn [filter due].
  split; intro Htime.
  - apply Qleb_le in Htime. rewrite Htime. reflexivity.
  - apply Qleb_gt in Htime. rewrite Htime. cbn [negb map].
    rewrite app_nil_r. split; [reflexivity|].
    exists id. apply in_or_app. right. left. reflexivity.
Qed.

Lemma debounce_runs_only_the_last_call_after_the_delay_witness :
  let state := (None, {| next_id := 0; pending := @nil (Timer string) |}) in
  let state' :=
    debounced_calls (fun s : string => s) 200
      ([(0, "a"%string); (50, "b"%string)] ++ [(120, "c"%string)]) state in
  fst (run_due 320 (snd state')) = ["c"%string].
Proof.
  intros state state'.
  destruct (debounce_runs_only_the_last_call_after_the_delay string string
              (fun s => s) 200 state [(0, "a"%string); (50, "b"%string)]
              120 "c"%string 320) as (_ & H & _).
  - split; [constructor | exact I].
  - apply H. vm_compute. discriminate.
Defined.

Lemma constructor_randomizes_within_fixed_ranges_witness :
  let p := fst (Confetti_new demo_host {| x := 0; y := 770 |} DirRight 4
                  (confettiColors defaultConfettiConfig) [] None no_calls) in
  0.2 <= finalSpeedX p /\ finalSpeedX p <= 0.6
  /\ 0.0005 <= dragCoefficient p /\ dragCoefficient p <= 0.0009.
Proof.
  destruct (constructor_randomizes_within_fixed_ranges demo_host no_calls
              {| x := 0; y := 770 |} DirRight 4
              (confettiColors defaultConfettiConfig) [] None
              demo_random_in_unit)
    as (_ & _ & H1 & H2 & H3 & H4 & _).
  intro p. exact (conj H1 (conj H2 (conj H3 H4))).
Defined.

Lemma constructor_launches_at_whole_degrees_witness :
  let p := fst (Confetti_new demo_host {| x := 1920; y := 770 |} DirLeft 4
                  (confettiColors defaultConfettiConfig) [] None no_calls) in
  exists degrees : Z,
    (15 <= degrees <= 82)%Z
    /\ absCos p
       = Math_abs (Math_cos demo_host (inject_Z degrees * DEG_TO_RAD demo_host)).
Proof.
  destruct (constructor_launches_at_whole_degrees demo_host no_calls
              {| x := 1920; y := 770 |} DirLeft 4
              (confettiColors defaultConfettiConfig) [] None
              demo_random_in_unit)
    as (degrees & Hd & Hc & _).
  intro p. exists degrees. split; [exact Hd | exact Hc].
Defined.

Lemma constructor_starts_behind_the_launch_point_witness :
  let p := fst (Confetti_new demo_host {| x := 0; y := 770 |} DirRight 4
                  (confettiColors defaultConfettiConfig) [] None no_calls) in
  position p = initialPosition p /\ 770 <= y (position p) /\ x (position p) <= 0.
Proof.
  destruct (constructor_starts_behind_the_launch_point demo_host no_calls
              {| x := 0; y := 770 |} DirRight 4
              (confettiColors defaultConfettiConfig) [] None
              demo_random_in_unit)
    as (H1 & _ & H2 & H3).
  intro p. exact (conj H1 (conj H2 H3)).
Defined.

Lemma addConfetti_consumes_a_fixed_number_of_oracle_calls_witness :
  snd (addConfetti demo_host 3 (count_config 6)
         (fst (ConfettiManager_new demo_host no_calls)) no_calls)
  = {| randomCalls := 54; nowCalls := 6 |}.
Proof.
  destruct (addConfetti_consumes_a_fixed_number_of_oracle_calls demo_host
              (count_config 6) (fst (ConfettiManager_new demo_host no_calls))
              no_calls 3%nat) as [H _].
  - vm_compute. apply le_n.
  - rewrite H. reflexivity.
Defined.

Lemma addConfetti_with_nonpositive_count_does_nothing_witness :
  addConfetti demo_host 0 (count_config (-4))
    (fst (ConfettiManager_new demo_host no_calls)) no_calls
  = (Some (fst (ConfettiManager_new demo_host no_calls)), no_calls).
Proof.
  apply (addConfetti_with_nonpositive_count_does_nothing demo_host
           (count_config (-4)) (fst (ConfettiManager_new demo_host no_calls))
           no_calls 0%nat).
  vm_compute. discriminate.
Defined.

Lemma addConfetti_builds_every_particle_from_the_settings_witness :
  let m := fst (ConfettiManager_new demo_host no_calls) in
  exists (m' : ConfettiManager) (burst : list Confetti),
    fst (addConfetti demo_host 3 (count_config 6) m no_calls) = Some m'
    /\ confetti m' = confetti m ++ burst
    /\ Forall (follows_settings demo_host
                 (spread defaultConfettiConfig (count_config 6))) burst.
Proof.
  intro m.
  destruct (addConfetti_builds_every_particle_from_the_settings demo_host
              (count_config 6) m no_calls 3%nat demo_random_in_unit)
    as (m' & burst & H1 & H2 & _ & _ & H3).
  - vm_compute. apply le_n.
  - exists m', burst. exact (conj H1 (conj H2 H3)).
Defined.

Lemma icon_particle_draws_its_image_only_once_loaded_witness :
  let p := updates (fst (Confetti_new demo_host {| x := 0; y := 770 |} DirRight
                           4 (confettiColors defaultConfettiConfig)
                           ["*"%string] (Some "star.svg"%string) no_calls))
             [(16, 1016)] in
  draw demo_host (onload p) = image_ops demo_host {| src := "star.svg" |} p.
Proof.
  destruct (icon_particle_draws_its_image_only_once_loaded demo_host no_calls
              {| x := 0; y := 770 |} DirRight 4
              (confettiColors defaultConfettiConfig) ["*"%string]
              "star.svg"%string [(16, 1016)] demo_random_in_unit)
    as [_ H].
  - reflexivity.
  - repeat constructor; discriminate.
  - intro p. exact H.
Defined.

Lemma particle_without_color_or_glyph_is_never_drawn_witness :
  draw demo_host
    (run (fst (Confetti_new demo_host {| x := 0; y := 770 |} DirRight 4
                 [] [] None no_calls))
         [Update 16 1016; Loaded; Update 16 1032])
  = [].
Proof.
  destruct (particle_without_color_or_glyph_is_never_drawn demo_host no_calls
              {| x := 0; y := 770 |} DirRight 4 [] None
              [Update 16 1016; Loaded; Update 16 1032])
    as (_ & _ & H).
  - reflexivity.
  - exact H.
Defined.

Lemma getRandomItem_picks_a_member_or_nothing_witness :
  exists a : string,
    fst (getRandomItem demo_host (confettiColors defaultConfettiConfig) no_calls)
    = Some a
    /\ In a (confettiColors defaultConfettiConfig).
Proof.
  destruct (getRandomItem_picks_a_member_or_nothing demo_host string
              (confettiColors defaultConfettiConfig) no_calls
              demo_random_in_unit) as [H _].
  exact H.
Defined.

Lemma drag_step_overshoot_is_bounded_and_permanent_witness :
  let p' := updatePosition 2000 3000 (drifting_particle 1 0.6) in
  x (speed p') < 0.6
  /\ x (speed (updates p' [(16, 3016); (16, 3032)])) = x (speed p').
Proof.
  destruct (drag_step_overshoot_is_bounded_and_permanent
              (drifting_particle 1 0.6) 2000 3000)
    as (_ & _ & _ & H).
  - cbn [drifting_particle speed finalSpeedX x]. lra.
  - cbn [drifting_particle dragCoefficient]. lra.
  - lra.
  - destruct H as [H1 H2].
    + cbn [drifting_particle speed finalSpeedX dragCoefficient x]. lra.
    + intro p'. split; [exact H1 | apply H2].
Defined.

Lemma rotationSpeed_only_decays_and_never_goes_negative_witness :
  let q := updates (drifting_particle 1 0.6) [(16, 1016); (33, 1049)] in
  0 <= rotationSpeed q
  /\ rotationSpeed q <= 0.05
  /\ 0 <= rotationSpeed (updatePosition 5000 6049 q)
  /\ rotationSpeed (updatePosition 5000 6049 q) <= rotationSpeed q.
Proof.
  apply (rotationSpeed_only_decays_and_never_goes_negative
           (drifting_particle 1 0.6) [(16, 1016); (33, 1049)] 5000 6049).
  - reflexivity.
  - cbn [drifting_particle rotationSpeed]. lra.
  - repeat constructor; cbn [fst]; lra.
  - lra.
Defined.

Lemma every_particle_is_eventually_culled_witness :
  isVisible 2160 (updatePosition 16 2000 (resting_particle 500 0)) = false.
Proof.
  apply (every_particle_is_eventually_culled 2160 (resting_particle 500 0)
           16 2000).
  vm_compute. discriminate.
Defined.

Lemma late_frame_empties_the_collection_witness :
  let m := {| canvas := {| width := 3840; height := 2160 |};
              confetti := [resting_particle 500 0; resting_particle 600 0];
              lastUpdated := 0 |} in
  confetti (fst (fst (loop demo_host m {| randomCalls := 0; nowCalls := 100 |})))
  = [].
Proof.
  intro m.
  apply (late_frame_empties_the_collection demo_host m
           {| randomCalls := 0; nowCalls := 100 |}).
  vm_compute. discriminate.
Defined.

Lemma updates_speed_x_negative (p : Confetti) (calls : list (Q * Q)) :
  x (speed p) < 0 -> 0 <= finalSpeedX p ->
  x (speed (updates p calls)) < 0
  /\ same_constants p (updates p calls).
Proof.
  intros Hneg Hfloor.
  destruct (updates_speed_x_at_floor p calls) as [Hx _]; [lra|].
  rewrite Hx. split; [exact Hneg | apply updates_constants].
Qed.

(** X19. A frame long enough to take [speed.x] below zero (its
    [dragCoefficient * deltaTime] exceeds [speed.x]) reverses the particle
    for good: in every later update with positive [deltaTime] a particle of
    direction right moves left and one of direction left moves right. *)
Theorem long_frame_reverses_the_particle_for_good :
  forall (p : Confetti) (deltaTime currentTime : Q) (later : list (Q * Q))
         (deltaTime' currentTime' : Q),
    finalSpeedX p < x (speed p) ->
    0 <= finalSpeedX p ->
    x (speed p) < dragCoefficient p * deltaTime ->
    0 < absCos p ->
    0 < deltaTime' ->
    let q := updates (updatePosition deltaTime currentTime p) later in
    let q' := updatePosition deltaTime' currentTime' q in
    x (speed q) < 0
    /\ match direction p with
       | DirRight => x (position q') < x (position q)
       | DirLeft => x (position q) < x (position q')
       end.
Proof.
  intros p deltaTime currentTime later deltaTime' currentTime'
    Habove Hfloor Hlong Hcos Hdt q q'.
  set (p' := updatePosition deltaTime currentTime p) in *.
  destruct (updatePosition_constants deltaTime currentTime p) as [Hc _].
  fold p' in Hc.
  assert (Hx : x (speed p') < 0).
  { unfold p'. rewrite updatePosition_speed_x. unfold dragged_speed_x.
    apply Qltb_lt in Habove. rewrite Habove. lra. }
  destruct (updates_speed_x_negative p' later Hx) as [Hq Hc'].
  { rewrite (same_finalSpeedX _ _ Hc). exact Hfloor. }
  fold q in Hq, Hc'.
  split; [exact Hq|].
  assert (Hstay : dragged_speed_x deltaTime' q = x (speed q)).
  { apply dragged_speed_x_at_floor.
    rewrite (same_finalSpeedX _ _ Hc'), (same_finalSpeedX _ _ Hc). lra. }
  unfold q'. rewrite updatePosition_position_x, Hstay.
  rewrite (same_direction _ _ Hc'), (same_direction _ _ Hc).
  rewrite (same_absCos _ _ Hc'), (same_absCos _ _ Hc).
  assert (Hprod : x (speed q) * absCos p * deltaTime' < 0).
  { assert (H1 : 0 < absCos p * deltaTime') by nra.
    set (k := absCos p * deltaTime') in *.
    setoid_replace (x (speed q) * absCos p * deltaTime')
      with (x (speed q) * k) by (unfold k; ring).
    nra. }
  destruct (direction p).
  - setoid_replace (x (speed q) * - absCos p * deltaTime')
      with (- (x (speed q) * absCos p * deltaTime')) by ring.
    lra.
  - lra.
Qed.

Lemma long_frame_reverses_the_particle_for_good_witness :
  let q := updates (updatePosition 3000 4000 (drifting_particle 1 0.6))
             [(16, 4016)] in
  x (speed q) < 0
  /\ x (position (updatePosition 16 4032 q)) < x (position q).
Proof.
  apply (long_frame_reverses_the_particle_for_good (drifting_particle 1 0.6)
           3000 4000 [(16, 4016)] 16 4032);
    cbn [drifting_particle speed finalSpeedX dragCoefficient absCos x]; lra.
Defined.

Lemma spent_rotation_moves_nothing (deltaTime : Q) (q : Confetti) :
  rotationSpeed q == 0 -> 0 <= deltaTime ->
  deltaTime * decayed_rotationSpeed deltaTime q == 0.
Proof.
  intros Hrs Hdt. unfold decayed_rotationSpeed, Math_max.
  assert (Hrate : 0 <= 1e-5) by discriminate.
  set (rate := 1e-5) in *.
  rewrite Q.max_r; [ring|]. rewrite Hrs. nra.
Qed.

(** X20. Once the frames' total duration has used up the rotation speed
    ([rotationSpeed <= 1e-5 * total]), the tumble of a particle without glyph
    has stopped: every further update with non-negative [deltaTime] leaves
    [radius.y] at the value it has. *)
Theorem tumble_stops_when_the_rotationSpeed_is_spent :
  forall (p : Confetti) (calls : list (Q * Q)) (deltaTime currentTime : Q),
    tumbles p = true ->
    0 <= rotationSpeed p ->
    radius_y_in_range p ->
    Forall (fun call => 0 <= fst call) calls ->
    rotationSpeed p <= 1e-5 * total_deltaTime calls ->
    0 <= deltaTime ->
    let q := updates p calls in
    y (radius (updatePosition deltaTime currentTime q)) == y (radius q).
Proof.
  intros p calls deltaTime currentTime Ht Hrs Hrange Hcalls Hspent Hdt q.
  destruct (updates_rotationSpeed p calls Ht Hrs Hcalls) as [Hrot _].
  fold q in Hrot.
  assert (Hzero : rotationSpeed q == 0).
  { rewrite Hrot. apply Q.max_r.
    set (decay := 1e-5 * total_deltaTime calls) in *. lra. }
  pose proof (spent_rotation_moves_nothing deltaTime q Hzero Hdt) as Hstep.
  destruct (updates_radius_y_in_range p calls Hcalls Hrange) as [Hlo Hhi].
  fold q in Hlo, Hhi.
  assert (Htq : tumbles q = true).
  { destruct (updates_constants p calls) as [Hc Hi]. fold q in Hc, Hi.
    unfold tumbles in *. rewrite Hi, (same_emoji _ _ Hc). exact Ht. }
  set (stride := deltaTime * decayed_rotationSpeed deltaTime q) in *.
  destruct (radiusYDirection q) eqn:Hd.
  - destruct (updatePosition_tumble_down deltaTime currentTime q Htq Hd)
      as [Hclamp Hmove].
    fold stride in Hclamp, Hmove.
    destruct (Qlt_le_dec 0 (y (radius q) - stride)) as [Hpos|Hneg].
    + destruct (Hmove Hpos) as [E _]. rewrite E. lra.
    + destruct (Hclamp Hneg) as [E _]. rewrite E. lra.
  - destruct (updatePosition_tumble_up deltaTime currentTime q Htq Hd)
      as [Hclamp Hmove].
    fold stride in Hclamp, Hmove.
    destruct (Qlt_le_dec (y (radius q) + stride) (initialRadius q)) as [Hlt|Hge].
    + destruct (Hmove Hlt) as [E _]. rewrite E. lra.
    + destruct (Hclamp Hge) as [E _]. rewrite E. lra.
Qed.

Lemma tumble_stops_when_the_rotationSpeed_is_spent_witness :
  let q := updates (drifting_particle 1 0.6) [(16, 1016); (5000, 6016)] in
  y (radius (updatePosition 16 6032 q)) == y (radius q).
Proof.
  apply (tumble_stops_when_the_rotationSpeed_is_spent (drifting_particle 1 0.6)
           [(16, 1016); (5000, 6016)] 16 6032).
  - reflexivity.
  - cbn [drifting_particle rotationSpeed]. lra.
  - unfold radius_y_in_range. cbn [drifting_particle radius initialRadius y].
    split; lra.
  - repeat constructor; cbn [fst]; lra.
  - vm_compute. discriminate.
  - lra.
Defined.
